(** * Shortest-path engine of the graph visualizer (SPV.py)

    A shallow embedding of [ShortestPathVisualizer.dijkstra],
    [ShortestPathVisualizer.bellman_ford] and
    [ShortestPathVisualizer.is_path_edge], together with the properties
    the specification states about them.

    Conventions of the embedding:
    - Python dictionaries are [gmap]s; a subscript [d[k]] on a missing
      key raises [KeyError k].
    - Python sets are [gset]s; the order in which a set is iterated is
      not fixed by the language, so it is a parameter [set_iter] of the
      development, constrained only to enumerate the set.
    - [float('inf')] is the constructor [Inf] of [dist]; every other
      distance is an integer (the weights of the program are integers).
    - [while] loops take a [fuel] argument and answer [OutOfFuel] when
      it runs out; wall-clock time ([execution_time]) is not modelled. *)

From Stdlib Require Import ZArith Lia.
From stdpp Require Import gmap strings list fin_maps fin_sets.

Set Warnings "-clear-no-such-hyp".

Local Open Scope string_scope.
Local Open Scope list_scope.

(** ** Exceptions and the outcome monad *)

Inductive exn :=
| KeyError (k : string)
| ValueError.

Inductive outcome (A : Type) :=
| Ok (a : A)
| Raise (e : exn)
| OutOfFuel.
Arguments Ok {A} a.
Arguments Raise {A} e.
Arguments OutOfFuel {A}.

Definition outcome_bind {A B} (f : A → outcome B) (m : outcome A) : outcome B :=
  match m with
  | Ok a => f a
  | Raise e => Raise e
  | OutOfFuel => OutOfFuel
  end.

#[global] Instance outcome_mbind : MBind outcome := @outcome_bind.
#[global] Instance outcome_mret : MRet outcome := @Ok.

(** [d[k]] *)
Definition getitem {V} (d : gmap string V) (k : string) : outcome V :=
  match d !! k with
  | Some v => Ok v
  | None => Raise (KeyError k)
  end.

(** [for x in items: s = body(s, x)] *)
Fixpoint for_each {A S} (body : S → A → outcome S) (items : list A) (s : S) : outcome S :=
  match items with
  | [] => Ok s
  | x :: items' => s' ← body s x; for_each body items' s'
  end.

(** ** Distances: integers and [float('inf')] *)

Inductive dist :=
| Fin (z : Z)
| Inf.

#[global] Instance dist_eq_dec : EqDecision dist.
Proof. solve_decision. Defined.

(** [d + w] *)
Definition dist_add (d : dist) (w : Z) : dist :=
  match d with
  | Fin z => Fin (z + w)
  | Inf => Inf
  end.

(** [a < b] *)
Definition dist_ltb (a b : dist) : bool :=
  match a, b with
  | Fin x, Fin y => (x <? y)%Z
  | Fin _, Inf => true
  | Inf, _ => false
  end.

(** [d == float('inf')] *)
Definition is_inf (d : dist) : bool :=
  match d with
  | Inf => true
  | Fin _ => false
  end.

(** ** The graph held by the visualizer *)

Record Node := mkNode { id : string; node_x : Z; node_y : Z; radius : Z }.

(** [Node.__init__] *)
Definition Node_init (i : string) (px py : Z) : Node := mkNode i px py 24.

Record Edge := mkEdge { from_node : Node; to_node : Node; weight : Z }.

(** The part of [ShortestPathVisualizer] the algorithms read. *)
Record ShortestPathVisualizer := mkVisualizer {
  nodes : gmap string Node;
  edges : list Edge
}.

(** The dictionaries returned by the two algorithms ([execution_time]
    left out): either the keys [distance], [path], [visit_order],
    [algorithm], or the keys [error], [algorithm]. *)
Inductive result :=
| PathResult (distance : dist) (path : list string) (visit_order : list string)
    (algorithm : string)
| ErrorResult (error : string) (algorithm : string).

(** The working tables shared by both algorithms. *)
Record tables := mkTables {
  distances : gmap string dist;
  previous : gmap string (option string);
  visit_order : list string
}.

(** [{node: float('inf') for node in self.nodes}],
    [{node: None for node in self.nodes}], [visit_order = []],
    then [distances[start] = 0]. *)
Definition init_tables (self : ShortestPathVisualizer) (start : string) : tables :=
  mkTables (<[start := Fin 0]> ((λ _, Inf) <$> nodes self))
           ((λ _, None) <$> nodes self)
           [].

(** Path reconstruction, shared verbatim by both algorithms:
    [while current is not None: path.insert(0, current);
     current = previous[current]]. *)
Fixpoint reconstruct (fuel : nat) (prev : gmap string (option string))
    (current : option string) (path : list string) : outcome (list string) :=
  match current with
  | None => Ok path
  | Some c =>
      match fuel with
      | O => OutOfFuel
      | S fuel' =>
          next ← getitem prev c;
          reconstruct fuel' prev next (c :: path)
      end
  end.

(** The final [return {...}] of both algorithms. *)
Definition make_result (fuel : nat) (t : tables) (end_ : string) (name : string)
    : outcome result :=
  path ← reconstruct fuel (previous t) (Some end_) [];
  d_end ← getitem (distances t) end_;
  Ok (PathResult d_end (if is_inf d_end then [] else path) (visit_order t) name).

(** ** Dijkstra *)

(** [graph = defaultdict(list)] filled from [self.edges]. *)
Definition build_graph (es : list Edge) : gmap string (list (string * Z)) :=
  foldl (λ (graph : gmap string (list (string * Z))) edge,
           <[id (from_node edge) :=
               default [] (graph !! id (from_node edge))
               ++ [(id (to_node edge), weight edge)]]> graph)
        ∅ es.

(** [graph[current]] on a [defaultdict(list)]. *)
Definition graph_get (graph : gmap string (list (string * Z))) (current : string)
    : list (string * Z) :=
  default [] (graph !! current).

(** [min(items, key=lambda node: distances[node])]: the first item, in
    iteration order, whose key is smallest. *)
Fixpoint min_scan (ds : gmap string dist) (best : string) (best_key : dist)
    (rest : list string) : outcome string :=
  match rest with
  | [] => Ok best
  | n :: rest' =>
      k ← getitem ds n;
      if dist_ltb k best_key then min_scan ds n k rest'
      else min_scan ds best best_key rest'
  end.

Definition py_min (ds : gmap string dist) (items : list string) : outcome string :=
  match items with
  | [] => Raise ValueError
  | n :: rest => k ← getitem ds n; min_scan ds n k rest
  end.

(** The body of [for neighbor, weight in graph[current]]. *)
Definition dijkstra_relax (current : string) (t : tables) (nw : string * Z)
    : outcome tables :=
  d_cur ← getitem (distances t) current;
  let alt := dist_add d_cur (snd nw) in
  d_nb ← getitem (distances t) (fst nw);
  if dist_ltb alt d_nb
  then Ok (mkTables (<[fst nw := alt]> (distances t))
                    (<[fst nw := Some current]> (previous t))
                    (visit_order t))
  else Ok t.

Inductive flow := Next | Break.

Section Dijkstra.
(** The order in which Python iterates over a set. *)
Variable set_iter : gset string → list string.

(** The body of [while unvisited] once [current] has been chosen. *)
Definition dijkstra_visit (graph : gmap string (list (string * Z)))
    (start end_ : string) (unvisited : gset string) (t : tables)
    (current : string) : outcome (flow * gset string * tables) :=
  d_cur ← getitem (distances t) current;
  if is_inf d_cur then Ok (Break, unvisited, t)
  else
    if decide (current ∈ unvisited) then
      let unvisited' := unvisited ∖ {[current]} in
      let t' := if decide (current ≠ start)
                then mkTables (distances t) (previous t) (visit_order t ++ [current])
                else t in
      if decide (current = end_) then Ok (Break, unvisited', t')
      else
        t'' ← for_each (dijkstra_relax current) (graph_get graph current) t';
        Ok (Next, unvisited', t'')
    else Raise (KeyError current).

(** One iteration of [while unvisited]. *)
Definition dijkstra_body (graph : gmap string (list (string * Z)))
    (start end_ : string) (unvisited : gset string) (t : tables)
    : outcome (flow * gset string * tables) :=
  current ← py_min (distances t) (set_iter unvisited);
  dijkstra_visit graph start end_ unvisited t current.

Fixpoint dijkstra_while (fuel : nat) (graph : gmap string (list (string * Z)))
    (start end_ : string) (unvisited : gset string) (t : tables)
    : outcome (gset string * tables) :=
  if decide (unvisited = ∅) then Ok (unvisited, t)
  else
    match fuel with
    | O => OutOfFuel
    | S fuel' =>
      r ← dijkstra_body graph start end_ unvisited t;
      match r with
      | (Break, unvisited', t') => Ok (unvisited', t')
      | (Next, unvisited', t') =>
          dijkstra_while fuel' graph start end_ unvisited' t'
      end
    end.

Definition dijkstra (fuel : nat) (self : ShortestPathVisualizer)
    (start end_ : string) : outcome result :=
  let graph := build_graph (edges self) in
  r ← dijkstra_while fuel graph start end_ (dom (nodes self))
        (init_tables self start);
  make_result fuel (snd r) end_ "Dijkstra".
End Dijkstra.

(** ** Bellman-Ford *)

(** The body of the relaxation loop [for edge in self.edges]; the
    boolean is the flag [updated]. *)
Definition bf_relax (start : string) (acc : tables * bool) (edge : Edge)
    : outcome (tables * bool) :=
  let t := fst acc in
  let u := id (from_node edge) in
  let v := id (to_node edge) in
  d_u ← getitem (distances t) u;
  if is_inf d_u then Ok acc
  else
    let alt := dist_add d_u (weight edge) in
    d_v ← getitem (distances t) v;
    if dist_ltb alt d_v
    then Ok (mkTables (<[v := alt]> (distances t))
                      (<[v := Some u]> (previous t))
                      (if decide ((v ∉ visit_order t) ∧ v ≠ start)
                       then visit_order t ++ [v]
                       else visit_order t),
             true)
    else Ok acc.

(** [for _ in range(n)] with the early [break] when a pass changes
    nothing. *)
Fixpoint bf_passes (n : nat) (start : string) (es : list Edge) (t : tables)
    : outcome tables :=
  match n with
  | O => Ok t
  | S n' =>
      '(t', updated) ← for_each (bf_relax start) es (t, false);
      if (updated : bool) then bf_passes n' start es t' else Ok t'
  end.

(** The scan for negative cycles: [true] when the [return] inside the
    loop is reached. *)
Fixpoint bf_check (ds : gmap string dist) (es : list Edge) : outcome bool :=
  match es with
  | [] => Ok false
  | edge :: es' =>
      d_u ← getitem ds (id (from_node edge));
      if is_inf d_u then bf_check ds es'
      else
        d_v ← getitem ds (id (to_node edge));
        if dist_ltb (dist_add d_u (weight edge)) d_v then Ok true
        else bf_check ds es'
  end.

Definition bellman_ford (fuel : nat) (self : ShortestPathVisualizer)
    (start end_ : string) : outcome result :=
  t ← bf_passes (size (nodes self) - 1) start (edges self) (init_tables self start);
  cyc ← bf_check (distances t) (edges self);
  if (cyc : bool) then Ok (ErrorResult "Negative cycle detected" "Bellman-Ford")
  else make_result fuel t end_ "Bellman-Ford".

(** ** Path membership *)

(** [is_path_edge], with [self.result] as an argument ([None] before a
    run and after "Clear Result"). *)
Definition is_path_edge (res : option result) (edge : Edge) : bool :=
  match res with
  | Some (PathResult _ path _ _) =>
      existsb (λ i, bool_decide (path !! i = Some (id (from_node edge)))
                    && bool_decide (path !! (i + 1)%nat = Some (id (to_node edge))))
              (seq 0 (length path - 1))
  | _ => false
  end.

(** ** The graphs of the scenarios *)

(** The graph built by [ShortestPathVisualizer.__init__]. *)
Definition initial_visualizer : ShortestPathVisualizer :=
  let A := Node_init "A" 150 150 in
  let B := Node_init "B" 350 150 in
  let C := Node_init "C" 550 150 in
  let D := Node_init "D" 350 300 in
  let E := Node_init "E" 150 300 in
  mkVisualizer
    (<["E" := E]> (<["D" := D]> (<["C" := C]> (<["B" := B]> (<["A" := A]> ∅)))))
    [ mkEdge A B 4; mkEdge A E 2; mkEdge B C 3; mkEdge B D 1;
      mkEdge C D 2; mkEdge D E 3; mkEdge E B 7 ].

(** Scenario 3: two nodes and the single edge X -> Y (5). *)
Definition xy_visualizer : ShortestPathVisualizer :=
  let X := Node_init "X" 0 0 in
  let Y := Node_init "Y" 100 0 in
  mkVisualizer (<["Y" := Y]> (<["X" := X]> ∅)) [ mkEdge X Y 5 ].

(** Scenario 4: P -> Q (1), Q -> R (-3), R -> Q (1). *)
Definition pqr_visualizer : ShortestPathVisualizer :=
  let P := Node_init "P" 0 0 in
  let Q := Node_init "Q" 100 0 in
  let R := Node_init "R" 200 0 in
  mkVisualizer (<["R" := R]> (<["Q" := Q]> (<["P" := P]> ∅)))
    [ mkEdge P Q 1; mkEdge Q R (-3); mkEdge R Q 1 ].

(** ** Vocabulary of the specification *)

(** The three outcomes the specification distinguishes. *)
Inductive tag := Found | Unreachable | NegativeCycle.

Definition classify (r : result) : tag :=
  match r with
  | PathResult (Fin _) _ _ _ => Found
  | PathResult Inf _ _ _ => Unreachable
  | ErrorResult _ _ => NegativeCycle
  end.

Definition result_path (r : result) : list string :=
  match r with
  | PathResult _ p _ _ => p
  | ErrorResult _ _ => []
  end.

Definition result_visit_order (r : result) : list string :=
  match r with
  | PathResult _ _ vo _ => vo
  | ErrorResult _ _ => []
  end.

Definition result_distance (r : result) : option dist :=
  match r with
  | PathResult d _ _ _ => Some d
  | ErrorResult _ _ => None
  end.

(** Every edge joins two nodes of the node table. *)
Definition valid_graph (self : ShortestPathVisualizer) : Prop :=
  Forall (λ e, id (from_node e) ∈ dom (nodes self)
               ∧ id (to_node e) ∈ dom (nodes self)) (edges self).

Definition nonneg_weights (self : ShortestPathVisualizer) : Prop :=
  Forall (λ e, 0 ≤ weight e)%Z (edges self).

(** A lawful iteration order enumerates the set, each element once. *)
Definition lawful_iter (set_iter : gset string → list string) : Prop :=
  ∀ X, set_iter X ≡ₚ elements X.

(** [u] directly followed by [v] somewhere in [path]. *)
Definition adjacent_in (path : list string) (u v : string) : Prop :=
  ∃ l1 l2, path = l1 ++ u :: v :: l2.

(** The value read from a distance table, [Inf] for a missing key. *)
Definition dval (ds : gmap string dist) (v : string) : dist :=
  default Inf (ds !! v).

Definition dist_le (a b : dist) : Prop :=
  match a, b with
  | Fin x, Fin y => (x ≤ y)%Z
  | _, Inf => True
  | Inf, Fin _ => False
  end.

(** Walks of the graph, as lists of consecutive edges. *)
Fixpoint is_walk (u : string) (p : list Edge) (v : string) : Prop :=
  match p with
  | [] => u = v
  | e :: p' => id (from_node e) = u ∧ is_walk (id (to_node e)) p' v
  end.

Definition walk_weight (p : list Edge) : Z :=
  foldr (λ e acc, weight e + acc)%Z 0%Z p.

Definition walk_in (self : ShortestPathVisualizer) (u : string) (p : list Edge)
    (v : string) : Prop :=
  Forall (λ e, e ∈ edges self) p ∧ is_walk u p v.

(** No closed walk of negative weight can be reached from [start]. *)
Definition no_negative_cycle (self : ShortestPathVisualizer) (start : string) : Prop :=
  ∀ u p c, walk_in self start p u → walk_in self u c u → (0 ≤ walk_weight c)%Z.

(** [d] is the weight of a shortest walk from [start] to [v]
    ([Inf] when there is none). *)
Definition shortest_distance (self : ShortestPathVisualizer) (start v : string)
    (d : dist) : Prop :=
  (∀ p, walk_in self start p v → dist_le d (Fin (walk_weight p)))
  ∧ (∀ z, d = Fin z → ∃ p, walk_in self start p v ∧ walk_weight p = z).

(** An edge the negative-cycle scan of Bellman-Ford stops at. *)
Definition relaxable (ds : gmap string dist) (e : Edge) : Prop :=
  ∃ du dv, ds !! id (from_node e) = Some (Fin du)
           ∧ ds !! id (to_node e) = Some dv
           ∧ dist_ltb (Fin (du + weight e)) dv = true.

(** The keys of the working tables: [distances[start] = 0] adds the key
    [start] when it is not a node. *)
Definition tables_dom (self : ShortestPathVisualizer) (start : string)
    (t : tables) : Prop :=
  dom (distances t) = dom (nodes self) ∪ {[start]}
  ∧ dom (previous t) = dom (nodes self).

#[global] Instance valid_graph_dec (self : ShortestPathVisualizer) :
  Decision (valid_graph self).
Proof. unfold valid_graph. apply _. Defined.

#[global] Instance nonneg_weights_dec (self : ShortestPathVisualizer) :
  Decision (nonneg_weights self).
Proof. unfold nonneg_weights. apply _. Defined.

(** [c] is the one node of [X] with the smallest distance, so [min]
    picks it whatever the iteration order of the set. *)
Definition strict_min (ds : gmap string dist) (X : gset string) (c : string) : bool :=
  bool_decide (c ∈ X)
  && forallb (λ v, bool_decide (v ∈ dom ds)
                   && (bool_decide (v = c) || dist_ltb (dval ds c) (dval ds v)))
       (elements X).

(** The main loop of [dijkstra] replayed on a given sequence of choices
    of [current]; [None] when a choice is not the strict minimum, or the
    choices run out. *)
Fixpoint dijkstra_replay (choices : list string)
    (graph : gmap string (list (string * Z))) (start end_ : string)
    (unvisited : gset string) (t : tables)
    : option (outcome (gset string * tables)) :=
  if decide (unvisited = ∅) then Some (Ok (unvisited, t))
  else
    match choices with
    | [] => None
    | c :: choices' =>
        if strict_min (distances t) unvisited c then
          match dijkstra_visit graph start end_ unvisited t c with
          | Ok (Break, unvisited', t') => Some (Ok (unvisited', t'))
          | Ok (Next, unvisited', t') =>
              dijkstra_replay choices' graph start end_ unvisited' t'
          | Raise e => Some (Raise e)
          | OutOfFuel => Some OutOfFuel
          end
        else None
    end.

(** What both algorithms maintain about [visit_order]; for [dijkstra],
    [X] is the unvisited set (for [bellman_ford], take [X = ∅]). *)
Definition visit_order_inv (start : string) (X : gset string) (t : tables) : Prop :=
  NoDup (visit_order t) ∧ (start ∉ visit_order t)
  ∧ ∀ x, x ∈ visit_order t → x ∉ X.

(** The invariant of the tables under edge relaxation, common to both
    algorithms:
    - the start has a distance [z <= 0], negative once it has a predecessor;
    - a node without predecessor, other than the start, is at [Inf];
    - a predecessor link [u -> v] comes from an edge that is tight and
      goes up in some rank, or is slack ([distances[u] + w < distances[v]]);
    - every finite distance is the weight of a walk from the start. *)
Record tables_inv (self : ShortestPathVisualizer) (start : string)
    (t : tables) : Prop := mkTablesInv {
  inv_dom : tables_dom self start t;
  inv_start :
    ∃ z, distances t !! start = Some (Fin z) ∧ (z ≤ 0)%Z
         ∧ ∀ u, previous t !! start = Some (Some u) → (z < 0)%Z;
  inv_root :
    ∀ v, previous t !! v = Some None → v ≠ start → distances t !! v = Some Inf;
  inv_pred :
    ∃ rk : string → nat, ∀ v u, previous t !! v = Some (Some u) →
      ∃ e du dv, e ∈ edges self ∧ id (from_node e) = u ∧ id (to_node e) = v
                 ∧ distances t !! u = Some (Fin du)
                 ∧ distances t !! v = Some (Fin dv)
                 ∧ ((du + weight e = dv)%Z ∧ (rk u < rk v)%nat
                    ∨ (du + weight e < dv)%Z);
  inv_walk :
    ∀ v z, distances t !! v = Some (Fin z) →
           ∃ p, walk_in self start p v ∧ walk_weight p = z
}.

(** Edge [e] cannot be relaxed any more: [distances[v] <= distances[u] + w]. *)
Definition settled_edge (ds : gmap string dist) (e : Edge) : Prop :=
  dist_le (dval ds (id (to_node e)))
          (dist_add (dval ds (id (from_node e))) (weight e)).

(** The invariant of the main loop of [dijkstra] at the head of an
    iteration, for non-negative weights; [X] is the unvisited set. *)
Record dijkstra_inv (self : ShortestPathVisualizer) (start : string)
    (X : gset string) (t : tables) : Prop := mkDijkstraInv {
  dinv_tables : tables_inv self start t;
  dinv_sub : X ⊆ dom (nodes self);
  dinv_settled_le :
    ∀ u v, u ∈ dom (nodes self) → u ∉ X → v ∈ X →
           dist_le (dval (distances t) u) (dval (distances t) v);
  dinv_relaxed :
    ∀ e, e ∈ edges self → id (from_node e) ∉ X → settled_edge (distances t) e;
  dinv_pred : ∀ v u, previous t !! v = Some (Some u) → u ∉ X
}.

(** The invariant of the loop over the neighbours of [c], whose distance
    is [zc]; [X] is the unvisited set before [c] was removed and [done]
    the neighbours already handled. *)
Record relax_inv (self : ShortestPathVisualizer) (start : string)
    (X : gset string) (c : string) (zc : Z) (done : list (string * Z))
    (t : tables) : Prop := mkRelaxInv {
  rinv_tables : tables_inv self start t;
  rinv_current : distances t !! c = Some (Fin zc);
  rinv_settled :
    ∀ u, u ∈ dom (nodes self) → u ∉ X ∖ {[c]} →
         dist_le (dval (distances t) u) (Fin zc);
  rinv_unvisited :
    ∀ v, v ∈ X ∖ {[c]} → dist_le (Fin zc) (dval (distances t) v);
  rinv_relaxed :
    ∀ e, e ∈ edges self → id (from_node e) ∉ X → settled_edge (distances t) e;
  rinv_done :
    ∀ v w, (v, w) ∈ done → dist_le (dval (distances t) v) (Fin (zc + w));
  rinv_pred : ∀ v u, previous t !! v = Some (Some u) → u ∉ X ∖ {[c]}
}.

(** What path reconstruction and the result need from the tables an
    algorithm ends with. *)
Record final_tables (self : ShortestPathVisualizer) (start end_ : string)
    (t : tables) : Prop := mkFinalTables {
  fin_inv : tables_inv self start t;
  fin_lower :
    ∀ p, walk_in self start p end_ →
         dist_le (dval (distances t) end_) (Fin (walk_weight p));
  fin_pred :
    ∀ v u, previous t !! v = Some (Some u) →
           ∀ e, e ∈ edges self → id (from_node e) = u →
                settled_edge (distances t) e
}.

(** A property of the two dictionaries that every improving relaxation
    of an edge keeps. *)
Definition relax_closed (self : ShortestPathVisualizer)
    (P : gmap string dist → gmap string (option string) → Prop) : Prop :=
  ∀ d p e du dv,
    P d p → e ∈ edges self →
    d !! id (from_node e) = Some (Fin du) →
    d !! id (to_node e) = Some dv →
    dist_ltb (Fin (du + weight e)) dv = true →
    P (<[id (to_node e) := Fin (du + weight e)]> d)
      (<[id (to_node e) := Some (id (from_node e))]> p).

(** The nodes a walk from [u] passes through, in order. *)
Definition walk_nodes (u : string) (p : list Edge) : list string :=
  u :: map (λ e, id (to_node e)) p.

(** While the start has no predecessor, its distance is still 0. *)
Definition start_root (start : string) (d : gmap string dist)
    (p : gmap string (option string)) : Prop :=
  p !! start = Some None → d !! start = Some (Fin 0).

(** Every walk from [start] with at most [k] edges weighs at least the
    distance recorded for its end. *)
Definition walk_bounded (self : ShortestPathVisualizer) (start : string)
    (k : nat) (d : gmap string dist) : Prop :=
  ∀ p v, walk_in self start p v → (length p ≤ k)%nat →
         dist_le (dval d v) (Fin (walk_weight p)).

(** ** The event loop around the algorithms *)

(** [Node.contains_point]. *)
Definition contains_point (n : Node) (px py : Z) : bool :=
  ((px - node_x n) ^ 2 + (py - node_y n) ^ 2 <=? radius n ^ 2)%Z.

(** The events [handle_events] tells apart: their type, and the [pos]
    and [button] attributes it reads. *)
Inductive Event :=
| QUIT
| MOUSEMOTION (pos : Z * Z)
| MOUSEBUTTONDOWN (pos : Z * Z) (button : Z)
| OTHER.

Record Rect := mkRect { rect_x : Z; rect_y : Z; rect_w : Z; rect_h : Z }.

Record Button := mkButton { rect : Rect; text : string; hover : bool }.

(** The mutable attributes of [ShortestPathVisualizer] next to the
    graph. *)
Record App := mkApp {
  app_graph : ShortestPathVisualizer;
  start_node : string;
  end_node : string;
  algorithm : string;
  self_result : option result;
  run_button : Button;
  clear_button : Button;
  dijkstra_button : Button;
  bellman_button : Button
}.

Definition set_result (self : App) (r : option result) : App :=
  mkApp (app_graph self) (start_node self) (end_node self) (algorithm self) r
    (run_button self) (clear_button self) (dijkstra_button self)
    (bellman_button self).

Definition set_algorithm (self : App) (a : string) : App :=
  mkApp (app_graph self) (start_node self) (end_node self) a (self_result self)
    (run_button self) (clear_button self) (dijkstra_button self)
    (bellman_button self).

Definition set_start_node (self : App) (n : string) : App :=
  mkApp (app_graph self) n (end_node self) (algorithm self) (self_result self)
    (run_button self) (clear_button self) (dijkstra_button self)
    (bellman_button self).

Definition set_end_node (self : App) (n : string) : App :=
  mkApp (app_graph self) (start_node self) n (algorithm self) (self_result self)
    (run_button self) (clear_button self) (dijkstra_button self)
    (bellman_button self).

Definition set_run_button (self : App) (b : Button) : App :=
  mkApp (app_graph self) (start_node self) (end_node self) (algorithm self)
    (self_result self) b (clear_button self) (dijkstra_button self)
    (bellman_button self).

Definition set_clear_button (self : App) (b : Button) : App :=
  mkApp (app_graph self) (start_node self) (end_node self) (algorithm self)
    (self_result self) (run_button self) b (dijkstra_button self)
    (bellman_button self).

Definition set_dijkstra_button (self : App) (b : Button) : App :=
  mkApp (app_graph self) (start_node self) (end_node self) (algorithm self)
    (self_result self) (run_button self) (clear_button self) b
    (bellman_button self).

Definition set_bellman_button (self : App) (b : Button) : App :=
  mkApp (app_graph self) (start_node self) (end_node self) (algorithm self)
    (self_result self) (run_button self) (clear_button self)
    (dijkstra_button self) b.

Section EventLoop.
(** [pygame.Rect.collidepoint], the iteration order of [dict.items()],
    the iteration order of sets and the fuel of the [while] loops. *)
Variable collidepoint : Rect → Z * Z → bool.
Variable dict_items : gmap string Node → list (string * Node).
Variable set_iter : gset string → list string.
Variable fuel : nat.

(** [Button.handle_event]: the returned flag and the button afterwards. *)
Definition Button_handle_event (b : Button) (event : Event) : bool * Button :=
  match event with
  | MOUSEMOTION pos => (false, mkButton (rect b) (text b) (collidepoint (rect b) pos))
  | MOUSEBUTTONDOWN pos _ => (collidepoint (rect b) pos, b)
  | _ => (false, b)
  end.

(** [run_algorithm]. *)
Definition run_algorithm (self : App) : outcome App :=
  r ← (if decide (algorithm self = "dijkstra")
       then dijkstra set_iter fuel (app_graph self) (start_node self) (end_node self)
       else bellman_ford fuel (app_graph self) (start_node self) (end_node self));
  Ok (set_result self (Some r)).

(** The body of [for node_id, node in self.nodes.items()]. *)
Definition select_node (pos : Z * Z) (button : Z) (self : App)
    (item : string * Node) : App :=
  if contains_point (snd item) (fst pos) (snd pos) then
    if decide (button = 1%Z) then set_result (set_start_node self (fst item)) None
    else if decide (button = 3%Z) then set_result (set_end_node self (fst item)) None
    else self
  else self.

(** [if button.handle_event(event): action]: the button is updated
    (its [hover]), and the action runs when the button reports a click. *)
Definition button_step (get : App → Button) (put : App → Button → App)
    (action : App → outcome App) (self : App) (event : Event) : outcome App :=
  let r := Button_handle_event (get self) event in
  let self := put self (snd r) in
  if fst r then action self else Ok self.

(** The body of [for event in pygame.event.get()] after the [QUIT] test. *)
Definition handle_event (self : App) (event : Event) : outcome App :=
  self ← button_step run_button set_run_button run_algorithm self event;
  self ← button_step clear_button set_clear_button
           (λ self, Ok (set_result self None)) self event;
  self ← button_step dijkstra_button set_dijkstra_button
           (λ self, Ok (set_result (set_algorithm self "dijkstra") None))
           self event;
  self ← button_step bellman_button set_bellman_button
           (λ self, Ok (set_result (set_algorithm self "bellman_ford") None))
           self event;
  Ok (match event with
      | MOUSEBUTTONDOWN pos button =>
          foldl (select_node pos button) self (dict_items (nodes (app_graph self)))
      | _ => self
      end).

(** [handle_events] on the events delivered by [pygame.event.get()]:
    the returned flag and the application afterwards. *)
Fixpoint handle_events (events : list Event) (self : App) : outcome (bool * App) :=
  match events with
  | [] => Ok (true, self)
  | QUIT :: _ => Ok (false, self)
  | event :: events' => self' ← handle_event self event; handle_events events' self'
  end.
End EventLoop.

(** The application as [__init__] leaves it. *)
Definition initial_app : App :=
  mkApp initial_visualizer "A" "C" "dijkstra" None
    (mkButton (mkRect 820 200 310 40) "Run Algorithm" false)
    (mkButton (mkRect 820 250 310 40) "Clear Result" false)
    (mkButton (mkRect 820 320 150 35) "Dijkstra" false)
    (mkButton (mkRect 980 320 150 35) "Bellman-Ford" false).

(** [dict.items()] yields each entry of the dictionary. *)
Definition lawful_items (dict_items : gmap string Node → list (string * Node)) : Prop :=
  ∀ m, dict_items m ≡ₚ map_to_list m.

(** Start and end are nodes, and the algorithm is one of the two names
    the buttons set. *)
Definition app_wf (self : App) : Prop :=
  start_node self ∈ dom (nodes (app_graph self))
  ∧ end_node self ∈ dom (nodes (app_graph self))
  ∧ (algorithm self = "dijkstra" ∨ algorithm self = "bellman_ford").

(** A stored result is the outcome of the selected algorithm on the
    selected start and end. *)
Definition result_fresh (set_iter : gset string → list string) (fuel : nat)
    (self : App) : Prop :=
  ∀ r, self_result self = Some r →
       (if decide (algorithm self = "dijkstra")
        then dijkstra set_iter fuel (app_graph self) (start_node self) (end_node self)
        else bellman_ford fuel (app_graph self) (start_node self) (end_node self))
       = Ok r.

(** What a click on the node [k] does to the selection. *)
Definition select (button : Z) (k : string) (self : App) : App :=
  if decide (button = 1%Z) then set_result (set_start_node self k) None
  else if decide (button = 3%Z) then set_result (set_end_node self k) None
  else self.

(** * Properties *)

(** ** The outcome monad *)

Lemma bind_Ok {A B} (m : outcome A) (f : A → outcome B) (b : B) :
  m ≫= f = Ok b → ∃ a, m = Ok a ∧ f a = Ok b.
Proof. destruct m as [a| |]; simpl; [eauto | discriminate..]. Qed.

Lemma getitem_Ok {V} (d : gmap string V) (k : string) (v : V) :
  getitem d k = Ok v ↔ d !! k = Some v.
Proof.
  unfold getitem. destruct (d !! k); split; intros; simplify_eq; done.
Qed.

Lemma getitem_dom {V} (d : gmap string V) (k : string) :
  k ∈ dom d → ∃ v, getitem d k = Ok v ∧ d !! k = Some v.
Proof.
  intros [v Hv]%elem_of_dom. exists v. split; [by apply getitem_Ok | done].
Qed.

Lemma getitem_missing {V} (d : gmap string V) (k : string) :
  k ∉ dom d → getitem d k = Raise (KeyError k).
Proof. intros Hk%not_elem_of_dom. unfold getitem. by rewrite Hk. Qed.

(** Inversion of a successful monadic computation, one bind at a time. *)
Ltac inv_Ok H :=
  repeat match type of H with
  | (_ ≫= _) = Ok _ =>
      let a := fresh "a" in
      let Ha := fresh "Ha" in
      apply bind_Ok in H as (a & Ha & H)
  end.

(** A loop invariant indexed by the items already processed. *)
Lemma for_each_prefix_inv {A S} (I : list A → S → Prop) (body : S → A → outcome S)
    (items : list A) (s s' : S) :
  I [] s →
  (∀ done x rest s1 s2,
      items = done ++ x :: rest → I done s1 → body s1 x = Ok s2 → I (done ++ [x]) s2) →
  for_each body items s = Ok s' →
  I items s'.
Proof.
  intros H0 Hstep.
  assert (Hgen : ∀ rest done s1,
             items = done ++ rest → I done s1 →
             for_each body rest s1 = Ok s' → I items s').
  { induction rest as [|x rest IH]; intros done s1 Heq HI Hrun; simpl in Hrun.
    - simplify_eq. by rewrite app_nil_r.
    - apply bind_Ok in Hrun as (s2 & Hb & Hrun).
      apply (IH (done ++ [x]) s2); [by rewrite <- app_assoc | | done].
      by eapply Hstep. }
  intros Hrun. by apply (Hgen items [] s).
Qed.

Lemma for_each_inv {A S} (I : S → Prop) (body : S → A → outcome S)
    (items : list A) (s s' : S) :
  I s →
  (∀ x s1 s2, x ∈ items → I s1 → body s1 x = Ok s2 → I s2) →
  for_each body items s = Ok s' →
  I s'.
Proof.
  intros H0 Hstep Hrun.
  apply (for_each_prefix_inv (λ _, I) body items s s'); [done | | done].
  intros done x rest s1 s2 -> HI Hb. eapply Hstep; [| done | done].
  set_solver.
Qed.

(** Progress: a loop whose body cannot fail under the invariant succeeds. *)
Lemma for_each_total {A S} (I : S → Prop) (body : S → A → outcome S)
    (items : list A) (s : S) :
  I s →
  (∀ x s1, x ∈ items → I s1 → ∃ s2, body s1 x = Ok s2 ∧ I s2) →
  ∃ s', for_each body items s = Ok s' ∧ I s'.
Proof.
  revert s. induction items as [|x items IH]; intros s HI Hstep; simpl.
  - eauto.
  - destruct (Hstep x s) as (s2 & Hb & HI2); [set_solver | done |].
    rewrite Hb. simpl. apply IH; [done |].
    intros y s1 Hy. apply Hstep. set_solver.
Qed.

(** ** Path membership *)

Lemma adjacent_in_lookup (path : list string) (u v : string) :
  adjacent_in path u v ↔ ∃ i, path !! i = Some u ∧ path !! S i = Some v.
Proof.
  split.
  - intros (l1 & l2 & ->). exists (length l1).
    split.
    + by rewrite list_lookup_middle.
    + rewrite (lookup_app_r l1); [| lia].
      by replace (S (length l1) - length l1) with 1 by lia.
  - intros (i & Hu & Hv).
    exists (take i path), (drop (S (S i)) path).
    rewrite <- (take_drop_middle path i u Hu) at 1.
    f_equal. f_equal.
    rewrite <- (take_drop_middle (drop (S i) path) 0 v).
    + simpl. rewrite drop_drop. f_equal. f_equal. lia.
    + rewrite lookup_drop. by rewrite Nat.add_0_r.
Qed.

Lemma is_path_edge_adjacent (d : dist) (path vo : list string) (name : string)
    (edge : Edge) :
  is_path_edge (Some (PathResult d path vo name)) edge = true
  ↔ adjacent_in path (id (from_node edge)) (id (to_node edge)).
Proof.
  rewrite adjacent_in_lookup. simpl. rewrite existsb_exists. split.
  - intros (i & _ & Hi). apply andb_true_iff in Hi as [H1 H2].
    apply bool_decide_eq_true in H1, H2.
    exists i. split; [done |]. by replace (S i) with (i + 1) by lia.
  - intros (i & H1 & H2). exists i. split.
    + apply in_seq. apply lookup_lt_Some in H2. lia.
    + apply andb_true_iff. split; apply bool_decide_eq_true; [done |].
      by replace (i + 1) with (S i) by lia.
Qed.

Lemma make_result_shape (fuel : nat) (t : tables) (end_ name : string) (r : result) :
  make_result fuel t end_ name = Ok r →
  ∃ d path, r = PathResult d (if is_inf d then [] else path) (visit_order t) name
            ∧ distances t !! end_ = Some d
            ∧ reconstruct fuel (previous t) (Some end_) [] = Ok path.
Proof.
  unfold make_result. intros H. inv_Ok H.
  apply getitem_Ok in Ha0. simplify_eq. eauto.
Qed.

Lemma dijkstra_result (set_iter : gset string → list string) (fuel : nat)
    (self : ShortestPathVisualizer) (start end_ : string) (r : result) :
  dijkstra set_iter fuel self start end_ = Ok r →
  ∃ X t, dijkstra_while set_iter fuel (build_graph (edges self)) start end_
           (dom (nodes self)) (init_tables self start) = Ok (X, t)
         ∧ make_result fuel t end_ "Dijkstra" = Ok r.
Proof.
  unfold dijkstra. intros H. apply bind_Ok in H as ([X t] & Hw & H). eauto.
Qed.

Lemma bellman_ford_result (fuel : nat) (self : ShortestPathVisualizer)
    (start end_ : string) (r : result) :
  bellman_ford fuel self start end_ = Ok r →
  ∃ t, bf_passes (size (nodes self) - 1) start (edges self) (init_tables self start) = Ok t
       ∧ ((bf_check (distances t) (edges self) = Ok true
           ∧ r = ErrorResult "Negative cycle detected" "Bellman-Ford")
          ∨ (bf_check (distances t) (edges self) = Ok false
             ∧ make_result fuel t end_ "Bellman-Ford" = Ok r)).
Proof.
  unfold bellman_ford. intros H.
  apply bind_Ok in H as (t & Hp & H). apply bind_Ok in H as (cyc & Hc & H).
  exists t. split; [done |]. destruct cyc; [left | right]; split; congruence.
Qed.

(** C7. For a result returned by either algorithm: when it is [Found],
    [is_path_edge] answers true exactly when the edge's endpoints are
    adjacent, in that order, in the result's path; when it is
    [Unreachable] or [NegativeCycle], [is_path_edge] answers false for
    every edge. *)
Theorem path_contains_edge_correct (set_iter : gset string → list string)
    (fuel : nat) (self : ShortestPathVisualizer) (start end_ : string)
    (r : result) (edge : Edge) :
  dijkstra set_iter fuel self start end_ = Ok r
  ∨ bellman_ford fuel self start end_ = Ok r →
  match classify r with
  | Found =>
      is_path_edge (Some r) edge = true
      ↔ adjacent_in (result_path r) (id (from_node edge)) (id (to_node edge))
  | Unreachable | NegativeCycle => is_path_edge (Some r) edge = false
  end.
Proof.
  intros Hr.
  assert (Hshape : (∃ e a, r = ErrorResult e a)
                   ∨ ∃ t name d path,
                       r = PathResult d (if is_inf d then [] else path)
                             (visit_order t) name).
  { destruct Hr as [Hd | Hb].
    - apply dijkstra_result in Hd as (X & t & _ & Hm).
      apply make_result_shape in Hm as (d & path & -> & _). right. eauto.
    - apply bellman_ford_result in Hb as (t & _ & [[_ ->] | [_ Hm]]).
      + left. eauto.
      + apply make_result_shape in Hm as (d & path & -> & _). right. eauto 6. }
  destruct Hshape as [(e & a & ->) | (t & name & d & path & ->)]; [done |].
  destruct d as [z |]; simpl classify; cbv iota.
  - apply is_path_edge_adjacent.
  - reflexivity.
Qed.

Lemma path_contains_edge_correct_witness :
  is_path_edge
    (Some (PathResult (Fin 7) ["A"; "B"; "C"] ["E"; "B"; "D"; "C"] "Dijkstra"))
    (mkEdge (Node_init "B" 350 150) (Node_init "C" 550 150) 3) = true
  ↔ adjacent_in ["A"; "B"; "C"] "B" "C".
Proof.
  apply (path_contains_edge_correct elements 5 initial_visualizer "A" "C"
           (PathResult (Fin 7) ["A"; "B"; "C"] ["E"; "B"; "D"; "C"] "Dijkstra")).
  left. vm_compute. reflexivity.
Defined.

(** ** Distances *)

Lemma dist_le_refl (a : dist) : dist_le a a.
Proof. destruct a; simpl; [lia | done]. Qed.

Lemma dist_le_trans (a b c : dist) : dist_le a b → dist_le b c → dist_le a c.
Proof. destruct a, b, c; simpl; try done; lia. Qed.

Lemma dist_ltb_le (a b : dist) : dist_ltb a b = true → dist_le a b.
Proof. destruct a, b; simpl; try done; lia. Qed.

Lemma dist_ltb_false (a b : dist) : dist_ltb a b = false ↔ dist_le b a.
Proof. destruct a, b; simpl; try done; lia. Qed.

Lemma dist_ltb_irrefl_le (a b : dist) : dist_ltb a b = true → dist_le b a → False.
Proof. destruct a, b; simpl; try done; lia. Qed.

Lemma dist_le_Inf_l (a : dist) : dist_le Inf a → a = Inf.
Proof. by destruct a. Qed.

Lemma dist_add_mono (a b : dist) (w : Z) :
  dist_le a b → dist_le (dist_add a w) (dist_add b w).
Proof. destruct a, b; simpl; try done; lia. Qed.

Lemma dval_lookup (ds : gmap string dist) (v : string) (d : dist) :
  ds !! v = Some d → dval ds v = d.
Proof. unfold dval. by intros ->. Qed.

Lemma dval_insert (ds : gmap string dist) (k v : string) (d : dist) :
  dval (<[k := d]> ds) v = if decide (k = v) then d else dval ds v.
Proof. unfold dval. rewrite lookup_insert. by case_decide. Qed.

(** ** The adjacency table *)

Lemma graph_get_build (es : list Edge) (c : string) :
  graph_get (build_graph es) c
  = (λ e, (id (to_node e), weight e)) <$> filter (λ e, id (from_node e) = c) es.
Proof.
  unfold build_graph.
  set (f := λ (graph : gmap string (list (string * Z))) edge,
              <[id (from_node edge) :=
                  default [] (graph !! id (from_node edge))
                  ++ [(id (to_node edge), weight edge)]]> graph).
  assert (Hgen : ∀ g, graph_get (foldl f g es) c
                      = graph_get g c
                        ++ ((λ e, (id (to_node e), weight e))
                              <$> filter (λ e, id (from_node e) = c) es)).
  { induction es as [|e es IH]; intros g; simpl.
    - by rewrite app_nil_r.
    - rewrite IH. rewrite filter_cons. unfold graph_get, f.
      rewrite lookup_insert. case_decide as Hc.
      + subst c. simpl. by rewrite <- app_assoc.
      + done. }
  rewrite Hgen. unfold graph_get. by rewrite lookup_empty.
Qed.

Lemma elem_of_graph_get (es : list Edge) (c v : string) (w : Z) :
  (v, w) ∈ graph_get (build_graph es) c
  ↔ ∃ e, e ∈ es ∧ id (from_node e) = c ∧ id (to_node e) = v ∧ weight e = w.
Proof.
  rewrite graph_get_build, list_elem_of_fmap. split.
  - intros (e & Heq & [Hc He]%list_elem_of_filter). simplify_eq. eauto.
  - intros (e & He & Hc & Hv & Hw). exists e. rewrite list_elem_of_filter.
    subst. eauto.
Qed.

(** ** [min] over the unvisited set *)

Lemma min_scan_spec (ds : gmap string dist) (rest : list string)
    (best : string) (bk : dist) (c : string) :
  ds !! best = Some bk →
  min_scan ds best bk rest = Ok c →
  c ∈ best :: rest ∧ ∀ v, v ∈ best :: rest → dist_le (dval ds c) (dval ds v).
Proof.
  revert best bk. induction rest as [|n rest IH]; intros best bk Hb H; simpl in H.
  - simplify_eq. split; [set_solver |].
    intros v ->%list_elem_of_singleton. apply dist_le_refl.
  - apply bind_Ok in H as (k & Hk%getitem_Ok & H).
    destruct (dist_ltb k bk) eqn:Hlt.
    + destruct (IH n k Hk H) as [Hin Hmin]. split; [set_solver |].
      intros v Hv. apply elem_of_cons in Hv as [Heq | Hv]; [| by apply Hmin].
      rewrite Heq.
      eapply dist_le_trans; [apply (Hmin n); set_solver |].
      rewrite (dval_lookup _ _ _ Hk), (dval_lookup _ _ _ Hb).
      by apply dist_ltb_le.
    + destruct (IH best bk Hb H) as [Hin Hmin]. split; [set_solver |].
      intros v Hv. apply elem_of_cons in Hv as [Heq | Hv].
      { rewrite Heq. apply Hmin; set_solver. }
      apply elem_of_cons in Hv as [Heq | Hv]; [| apply Hmin; set_solver].
      rewrite Heq.
      eapply dist_le_trans; [apply (Hmin best); set_solver |].
      rewrite (dval_lookup _ _ _ Hk), (dval_lookup _ _ _ Hb).
      by apply dist_ltb_false.
Qed.

Lemma min_scan_total (ds : gmap string dist) (rest : list string)
    (best : string) (bk : dist) :
  (∀ v, v ∈ rest → v ∈ dom ds) → ∃ c, min_scan ds best bk rest = Ok c.
Proof.
  revert best bk. induction rest as [|n rest IH]; intros best bk Hdom; simpl.
  - eauto.
  - destruct (getitem_dom ds n) as (k & -> & _); [set_solver |]. simpl.
    destruct (dist_ltb k bk); apply IH; set_solver.
Qed.

Lemma py_min_spec (ds : gmap string dist) (items : list string) (c : string) :
  py_min ds items = Ok c →
  c ∈ items ∧ ∀ v, v ∈ items → dist_le (dval ds c) (dval ds v).
Proof.
  destruct items as [|n rest]; simpl; [done |].
  intros H. apply bind_Ok in H as (k & Hk%getitem_Ok & H).
  by eapply min_scan_spec.
Qed.

Lemma py_min_total (ds : gmap string dist) (items : list string) :
  items ≠ [] → (∀ v, v ∈ items → v ∈ dom ds) → ∃ c, py_min ds items = Ok c.
Proof.
  destruct items as [|n rest]; [done |]. intros _ Hdom. simpl.
  destruct (getitem_dom ds n) as (k & -> & _); [set_solver |]. simpl.
  apply min_scan_total. set_solver.
Qed.

(** A strict minimum is chosen whatever the iteration order. *)
Lemma py_min_strict (ds : gmap string dist) (items : list string) (c : string) :
  c ∈ items →
  (∀ v, v ∈ items → v ∈ dom ds) →
  (∀ v, v ∈ items → v ≠ c → dist_ltb (dval ds c) (dval ds v) = true) →
  py_min ds items = Ok c.
Proof.
  intros Hc Hdom Hlt.
  assert (Hne : items ≠ []) by (intros ->; by apply elem_of_nil in Hc).
  destruct (py_min_total ds items Hne Hdom) as (c' & Hmin).
  rewrite Hmin. f_equal.
  destruct (py_min_spec _ _ _ Hmin) as [Hc' Hle].
  destruct (decide (c' = c)) as [| Hcc]; [done |].
  destruct (dist_ltb_irrefl_le _ _ (Hlt c' Hc' Hcc) (Hle c Hc)).
Qed.

(** ** Key sets of the tables, and absence of [KeyError] *)

Lemma init_tables_dom (self : ShortestPathVisualizer) (start : string) :
  tables_dom self start (init_tables self start).
Proof.
  unfold tables_dom, init_tables. simpl.
  rewrite dom_insert_L, !dom_fmap_L. split; [set_solver | done].
Qed.

Lemma valid_graph_edge (self : ShortestPathVisualizer) (e : Edge) :
  valid_graph self → e ∈ edges self →
  id (from_node e) ∈ dom (nodes self) ∧ id (to_node e) ∈ dom (nodes self).
Proof. intros Hv He. by apply (proj1 (Forall_forall _ _) Hv). Qed.

Lemma tables_dom_relaxed (self : ShortestPathVisualizer) (start : string)
    (t : tables) (v : string) (d : dist) (u : option string) (vo : list string) :
  tables_dom self start t → v ∈ dom (nodes self) →
  tables_dom self start
    (mkTables (<[v := d]> (distances t)) (<[v := u]> (previous t)) vo).
Proof.
  intros [Hd Hp] Hv. unfold tables_dom. simpl.
  rewrite !dom_insert_L, Hd, Hp. split; set_solver.
Qed.

Lemma dijkstra_relax_total (self : ShortestPathVisualizer) (start current : string)
    (t : tables) (nw : string * Z) :
  tables_dom self start t → current ∈ dom (nodes self) →
  fst nw ∈ dom (nodes self) →
  ∃ t', dijkstra_relax current t nw = Ok t' ∧ tables_dom self start t'.
Proof.
  intros Hdom Hc Hn. unfold dijkstra_relax.
  destruct (getitem_dom (distances t) current) as (dc & -> & _).
  { rewrite (proj1 Hdom). set_solver. }
  destruct (getitem_dom (distances t) (fst nw)) as (dn & -> & _).
  { rewrite (proj1 Hdom). set_solver. }
  simpl. destruct (dist_ltb _ _); eexists; (split; [done |]); [| done].
  by apply tables_dom_relaxed.
Qed.

Section SetIteration.
Variable set_iter : gset string → list string.
Hypothesis set_iter_lawful : lawful_iter set_iter.
Variables start end_ : string.

Lemma elem_of_set_iter (X : gset string) (x : string) : x ∈ set_iter X ↔ x ∈ X.
Proof. by rewrite (set_iter_lawful X), elem_of_elements. Qed.

Lemma set_iter_nonempty (X : gset string) : X ≠ ∅ → set_iter X ≠ [].
Proof.
  intros HX Hnil. apply HX. apply set_eq. intros x.
  rewrite <- elem_of_set_iter, Hnil. set_solver.
Qed.

(** What one iteration does to the unvisited set. *)
Lemma dijkstra_body_unvisited (graph : gmap string (list (string * Z)))
    (X : gset string) (t : tables) (fl : flow) (X' : gset string) (t' : tables) :
  dijkstra_body set_iter graph start end_ X t = Ok (fl, X', t') →
  (fl = Break ∧ X' = X ∧ t' = t
   ∧ ∃ c, c ∈ X ∧ dval (distances t) c = Inf
          ∧ ∀ v, v ∈ X → dist_le (dval (distances t) c) (dval (distances t) v))
  ∨ (∃ c, c ∈ X ∧ X' = X ∖ {[c]} ∧ size X = S (size X')).
Proof.
  unfold dijkstra_body. intros H.
  apply bind_Ok in H as (c & Hmin & H).
  apply py_min_spec in Hmin as [Hc Hle]. apply elem_of_set_iter in Hc.
  unfold dijkstra_visit in H.
  apply bind_Ok in H as (dc & Hdc%getitem_Ok & H).
  destruct (is_inf dc) eqn:Hinf.
  - left. simplify_eq. repeat split; try done. exists c.
    split; [done |]. split.
    + rewrite (dval_lookup _ _ _ Hdc). by destruct dc.
    + intros v Hv. apply Hle. by apply elem_of_set_iter.
  - right. exists c. split; [done |].
    destruct (decide (c ∈ X)) as [_ | ?]; [| done].
    assert (HX' : X' = X ∖ {[c]}).
    { destruct (decide (c = end_)); [by simplify_eq |].
      apply bind_Ok in H as (t'' & _ & H). by simplify_eq. }
    split; [done |]. subst X'.
    rewrite size_difference by set_solver. rewrite size_singleton.
    assert (size X ≠ 0%nat); [| lia].
    intros Hz%size_empty_inv. set_solver.
Qed.

(** More fuel never changes a result. *)
Lemma dijkstra_while_fuel_mono (fuel fuel' : nat)
    (graph : gmap string (list (string * Z))) (X : gset string) (t : tables)
    (r : gset string * tables) :
  (fuel ≤ fuel')%nat →
  dijkstra_while set_iter fuel graph start end_ X t = Ok r →
  dijkstra_while set_iter fuel' graph start end_ X t = Ok r.
Proof.
  revert fuel' X t. induction fuel as [|fuel IH]; intros fuel' X t Hle H.
  - simpl in H. destruct (decide (X = ∅)); [| done].
    destruct fuel'; simpl; by rewrite decide_True.
  - destruct fuel' as [|fuel']; [lia |]. simpl in *.
    destruct (decide (X = ∅)); [done |].
    apply bind_Ok in H as ([[fl X'] t'] & -> & H). simpl.
    destruct fl; [| done]. apply IH; [lia | done].
Qed.
End SetIteration.

Section DijkstraLoop.
Variable set_iter : gset string → list string.
Hypothesis set_iter_lawful : lawful_iter set_iter.
Variable self : ShortestPathVisualizer.
Hypothesis self_valid : valid_graph self.
Variables start end_ : string.

Lemma dijkstra_visit_total (X : gset string) (t : tables) (c : string) :
  tables_dom self start t → X ⊆ dom (nodes self) → c ∈ X →
  ∃ fl X' t', dijkstra_visit (build_graph (edges self)) start end_ X t c
              = Ok (fl, X', t')
              ∧ tables_dom self start t' ∧ X' ⊆ X.
Proof.
  intros Hdom HX Hc. unfold dijkstra_visit.
  destruct (getitem_dom (distances t) c) as (dc & -> & _).
  { rewrite (proj1 Hdom). set_solver. }
  simpl. destruct (is_inf dc); [by eauto 6 |].
  rewrite decide_True by done.
  set (t' := if decide (c ≠ start) then _ else t).
  assert (Hdom' : tables_dom self start t').
  { subst t'. by case_decide. }
  destruct (decide (c = end_)).
  { do 3 eexists. split; [done |]. split; [done | set_solver]. }
  destruct (for_each_total (tables_dom self start) (dijkstra_relax c)
              (graph_get (build_graph (edges self)) c) t' Hdom')
    as (t'' & -> & Hdom'').
  { intros [v w] s1 Hvw Hs1.
    apply elem_of_graph_get in Hvw as (e & He & _ & <- & _).
    apply (dijkstra_relax_total self start); [done | set_solver |].
    by apply valid_graph_edge. }
  simpl. do 3 eexists. split; [done |]. split; [done | set_solver].
Qed.

Lemma dijkstra_body_total (X : gset string) (t : tables) :
  tables_dom self start t → X ⊆ dom (nodes self) → X ≠ ∅ →
  ∃ fl X' t', dijkstra_body set_iter (build_graph (edges self)) start end_ X t
              = Ok (fl, X', t')
              ∧ tables_dom self start t' ∧ X' ⊆ X.
Proof.
  intros Hdom HX Hne. unfold dijkstra_body.
  destruct (py_min_total (distances t) (set_iter X)) as (c & Hmin).
  { by apply set_iter_nonempty. }
  { intros v Hv. apply (elem_of_set_iter set_iter set_iter_lawful) in Hv.
    rewrite (proj1 Hdom). set_solver. }
  rewrite Hmin. simpl. apply py_min_spec in Hmin as [Hc _].
  apply (elem_of_set_iter set_iter set_iter_lawful) in Hc.
  by apply dijkstra_visit_total.
Qed.

(** The main loop finishes within [size unvisited] iterations. *)
Lemma dijkstra_while_total (fuel : nat) (X : gset string) (t : tables) :
  (size X ≤ fuel)%nat → tables_dom self start t → X ⊆ dom (nodes self) →
  ∃ X' t', dijkstra_while set_iter fuel (build_graph (edges self)) start end_ X t
           = Ok (X', t')
           ∧ tables_dom self start t' ∧ X' ⊆ X.
Proof.
  revert X t. induction fuel as [|fuel IH]; intros X t Hsz Hdom HX; simpl.
  - rewrite decide_True; [by eauto |].
    apply leibniz_equiv, size_empty_inv. lia.
  - destruct (decide (X = ∅)); [by eauto |].
    destruct (dijkstra_body_total X t) as (fl & X' & t' & Hb & Hdom' & HX');
      [done.. |].
    rewrite Hb. simpl.
    destruct fl; [| by eauto].
    apply (dijkstra_body_unvisited set_iter set_iter_lawful) in Hb as [(? & _) | (c & Hc & -> & Hsize)];
      [done |].
    destruct (IH (X ∖ {[c]}) t') as (X'' & t'' & Hw & Hdom'' & HX'');
      [lia | done | set_solver |].
    rewrite Hw. do 2 eexists. split; [done |]. split; [done | set_solver].
Qed.

End DijkstraLoop.

(** ** Fuel *)

Lemma reconstruct_fuel_mono (fuel fuel' : nat) (prev : gmap string (option string))
    (current : option string) (path l : list string) :
  (fuel ≤ fuel')%nat →
  reconstruct fuel prev current path = Ok l →
  reconstruct fuel' prev current path = Ok l.
Proof.
  revert fuel' current path.
  induction fuel as [|fuel IH]; intros fuel' current path Hle H;
    destruct current as [c|]; simpl in H; try done.
  - by destruct fuel'.
  - destruct fuel' as [|fuel']; [lia |]. simpl.
    apply bind_Ok in H as (next & -> & H). simpl. apply IH; [lia | done].
  - by destruct fuel'.
Qed.

Lemma make_result_fuel_mono (fuel fuel' : nat) (t : tables) (end_ name : string)
    (r : result) :
  (fuel ≤ fuel')%nat →
  make_result fuel t end_ name = Ok r → make_result fuel' t end_ name = Ok r.
Proof.
  unfold make_result. intros Hle H.
  apply bind_Ok in H as (path & Hp & H).
  by rewrite (reconstruct_fuel_mono fuel fuel' _ _ _ _ Hle Hp).
Qed.

Lemma dijkstra_fuel_mono (set_iter : gset string → list string) (fuel fuel' : nat)
    (self : ShortestPathVisualizer) (start end_ : string) (r : result) :
  (fuel ≤ fuel')%nat →
  dijkstra set_iter fuel self start end_ = Ok r →
  dijkstra set_iter fuel' self start end_ = Ok r.
Proof.
  intros Hle (X & t & Hw & Hm)%dijkstra_result. unfold dijkstra.
  rewrite (dijkstra_while_fuel_mono set_iter start end_ fuel fuel' _ _ _ _ Hle Hw). simpl.
  by eapply make_result_fuel_mono.
Qed.

Lemma bellman_ford_fuel_mono (fuel fuel' : nat) (self : ShortestPathVisualizer)
    (start end_ : string) (r : result) :
  (fuel ≤ fuel')%nat →
  bellman_ford fuel self start end_ = Ok r →
  bellman_ford fuel' self start end_ = Ok r.
Proof.
  intros Hle (t & Hp & [[Hc ->] | [Hc Hm]])%bellman_ford_result;
    unfold bellman_ford; rewrite Hp; simpl; rewrite Hc; simpl; [done |].
  by eapply make_result_fuel_mono.
Qed.

(** ** Runs in which every minimum is strict *)

Lemma strict_min_py_min (set_iter : gset string → list string)
    (ds : gmap string dist) (X : gset string) (c : string) :
  lawful_iter set_iter → strict_min ds X c = true →
  py_min ds (set_iter X) = Ok c.
Proof.
  intros Hlaw [Hc Hall]%andb_true_iff.
  apply bool_decide_eq_true in Hc.
  rewrite forallb_forall in Hall.
  assert (Hin : ∀ v, v ∈ set_iter X → In v (elements X)).
  { intros v Hv. apply list_elem_of_In. by rewrite <- (Hlaw X). }
  apply py_min_strict.
  - by rewrite (elem_of_set_iter _ Hlaw).
  - intros v Hv. specialize (Hall v (Hin v Hv)).
    apply andb_true_iff in Hall as [Hd _]. by apply bool_decide_eq_true in Hd.
  - intros v Hv Hne. specialize (Hall v (Hin v Hv)).
    apply andb_true_iff in Hall as [_ [Heq | Hlt]%orb_true_iff]; [| done].
    by apply bool_decide_eq_true in Heq.
Qed.

Lemma dijkstra_replay_sound (set_iter : gset string → list string)
    (choices : list string) (graph : gmap string (list (string * Z)))
    (start end_ : string) (X : gset string) (t : tables)
    (r : outcome (gset string * tables)) (fuel : nat) :
  lawful_iter set_iter →
  dijkstra_replay choices graph start end_ X t = Some r →
  (length choices ≤ fuel)%nat →
  dijkstra_while set_iter fuel graph start end_ X t = r.
Proof.
  intros Hlaw. revert X t fuel.
  induction choices as [|c choices IH]; intros X t fuel H Hlen; simpl in H.
  - destruct (decide (X = ∅)) as [HX |]; [| done]. simplify_eq.
    destruct fuel; simpl; by rewrite decide_True.
  - destruct fuel as [|fuel]; [simpl in Hlen; lia |]. simpl.
    destruct (decide (X = ∅)); [by simplify_eq |].
    destruct (strict_min (distances t) X c) eqn:Hmin; [| done].
    unfold dijkstra_body.
    rewrite (strict_min_py_min set_iter _ _ _ Hlaw Hmin). simpl.
    destruct (dijkstra_visit graph start end_ X t c) as [[[fl X'] t'] | e |];
      simpl; [| by simplify_eq..].
    destruct fl; [| by simplify_eq].
    apply IH; [done | simpl in Hlen; lia].
Qed.

Lemma lawful_iter_elements : lawful_iter elements.
Proof. by intros X. Qed.

(** ** The scenarios of the specification *)

Lemma initial_visualizer_valid : valid_graph initial_visualizer.
Proof. by apply (bool_decide_unpack _); vm_compute. Qed.

(** C4. On the graph built by [__init__] (nodes A..E, edges A->B(4),
    A->E(2), B->C(3), B->D(1), C->D(2), D->E(3), E->B(7)),
    [dijkstra("A", "C")] returns distance 7 and path [A, B, C] (a
    [Found] result), whatever the iteration order of the unvisited set. *)
Theorem scenario_dijkstra_A_C (set_iter : gset string → list string) (fuel : nat) :
  lawful_iter set_iter → (5 ≤ fuel)%nat →
  dijkstra set_iter fuel initial_visualizer "A" "C"
  = Ok (PathResult (Fin 7) ["A"; "B"; "C"] ["E"; "B"; "D"; "C"] "Dijkstra").
Proof.
  intros Hlaw Hfuel. apply (dijkstra_fuel_mono set_iter 5 fuel); [done |].
  unfold dijkstra.
  erewrite (dijkstra_replay_sound set_iter ["A"; "E"; "B"; "D"; "C"]);
    [| done | vm_compute; reflexivity | simpl; lia].
  vm_compute. reflexivity.
Qed.

Lemma scenario_dijkstra_A_C_witness :
  dijkstra elements 5 initial_visualizer "A" "C"
  = Ok (PathResult (Fin 7) ["A"; "B"; "C"] ["E"; "B"; "D"; "C"] "Dijkstra").
Proof.
  apply (scenario_dijkstra_A_C elements 5); [exact lawful_iter_elements | lia].
Defined.

(** C9. In the main loop of [dijkstra], an iteration either stops at a
    minimum that is [inf] (leaving the unvisited set as it is) or removes
    exactly one node from the unvisited set; each iteration uses one unit
    of fuel, and the loop finishes with [|nodes|] units, so it performs at
    most [|nodes|] iterations. *)
Theorem dijkstra_loop_bound (set_iter : gset string → list string)
    (self : ShortestPathVisualizer) (start end_ : string) :
  lawful_iter set_iter → valid_graph self →
  (∀ X t fl X' t',
      dijkstra_body set_iter (build_graph (edges self)) start end_ X t
      = Ok (fl, X', t') →
      (fl = Break ∧ X' = X
       ∧ ∃ c, c ∈ X ∧ dval (distances t) c = Inf
              ∧ ∀ v, v ∈ X → dist_le (dval (distances t) c) (dval (distances t) v))
      ∨ (∃ c, c ∈ X ∧ X' = X ∖ {[c]} ∧ size X = S (size X')))
  ∧ ∃ X t,
      dijkstra_while set_iter (size (nodes self)) (build_graph (edges self))
        start end_ (dom (nodes self)) (init_tables self start) = Ok (X, t).
Proof.
  intros Hlaw Hvalid. split.
  - intros X t fl X' t' Hb.
    apply (dijkstra_body_unvisited set_iter Hlaw) in Hb
      as [(-> & -> & -> & Hc) | Hc]; [left | right]; done.
  - destruct (dijkstra_while_total set_iter Hlaw self Hvalid start end_
                (size (nodes self)) (dom (nodes self)) (init_tables self start))
      as (X & t & Hw & _).
    + by rewrite size_dom.
    + apply init_tables_dom.
    + done.
    + eauto.
Qed.

Lemma dijkstra_loop_bound_witness :
  ∃ X t,
    dijkstra_while elements (size (nodes initial_visualizer))
      (build_graph (edges initial_visualizer)) "A" "C"
      (dom (nodes initial_visualizer)) (init_tables initial_visualizer "A")
    = Ok (X, t).
Proof.
  apply (dijkstra_loop_bound elements initial_visualizer "A" "C").
  - exact lawful_iter_elements.
  - apply (bool_decide_unpack _). vm_compute. exact I.
Defined.

(** ** Bellman-Ford: absence of [KeyError] and the negative-cycle scan *)

Lemma bf_relax_total (self : ShortestPathVisualizer) (start : string)
    (acc : tables * bool) (e : Edge) :
  valid_graph self → e ∈ edges self → tables_dom self start (fst acc) →
  ∃ acc', bf_relax start acc e = Ok acc' ∧ tables_dom self start (fst acc').
Proof.
  intros Hvalid He Hdom. unfold bf_relax.
  destruct (valid_graph_edge self e Hvalid He) as [Hu Hv].
  destruct (getitem_dom (distances (fst acc)) (id (from_node e))) as (du & -> & _).
  { rewrite (proj1 Hdom). set_solver. }
  simpl. destruct (is_inf du); [by eauto |].
  destruct (getitem_dom (distances (fst acc)) (id (to_node e))) as (dv & -> & _).
  { rewrite (proj1 Hdom). set_solver. }
  simpl. destruct (dist_ltb _ _); [| by eauto].
  eexists. split; [done |]. simpl. by apply tables_dom_relaxed.
Qed.

Lemma bf_passes_total (self : ShortestPathVisualizer) (start : string)
    (n : nat) (t : tables) :
  valid_graph self → tables_dom self start t →
  ∃ t', bf_passes n start (edges self) t = Ok t' ∧ tables_dom self start t'.
Proof.
  intros Hvalid. revert t. induction n as [|n IH]; intros t Hdom; simpl.
  - eauto.
  - destruct (for_each_total (λ acc, tables_dom self start (fst acc))
                (bf_relax start) (edges self) (t, false) Hdom)
      as ([t' updated] & -> & Hdom').
    { intros e acc He Hacc. by apply bf_relax_total. }
    simpl. destruct updated; [by apply IH | by eauto].
Qed.

Lemma bf_check_spec (ds : gmap string dist) (es : list Edge) (b : bool) :
  bf_check ds es = Ok b → b = true ↔ ∃ e, e ∈ es ∧ relaxable ds e.
Proof.
  revert b. induction es as [|e es IH]; intros b H; simpl in H.
  - simplify_eq. split; [done |]. intros (e & He & _). by apply elem_of_nil in He.
  - apply bind_Ok in H as (du & Hdu%getitem_Ok & H).
    assert (Hskip : ¬ relaxable ds e → bf_check ds es = Ok b →
                    b = true ↔ ∃ e', e' ∈ e :: es ∧ relaxable ds e').
    { intros Hno Hrest. rewrite (IH b Hrest). split.
      - intros (e' & He' & Hr). exists e'. split; [by right | done].
      - intros (e' & He' & Hr). apply elem_of_cons in He' as [-> | He']; [done |].
        eauto. }
    destruct du as [zu |]; cbn [is_inf] in H.
    + apply bind_Ok in H as (dv & Hdv%getitem_Ok & H).
      change (dist_add (Fin zu) (weight e)) with (Fin (zu + weight e)) in H.
      destruct (dist_ltb (Fin (zu + weight e)) dv) eqn:Hlt.
      * simplify_eq. split; [| done]. intros _. exists e. split; [by left |].
        exists zu, dv. done.
      * apply Hskip; [| done]. intros (du' & dv' & H1 & H2 & H3).
        simplify_eq. congruence.
    + apply Hskip; [| done]. intros (du' & dv' & H1 & _). congruence.
Qed.

Lemma bf_check_total (self : ShortestPathVisualizer) (ds : gmap string dist)
    (es : list Edge) :
  valid_graph self → dom (nodes self) ⊆ dom ds → es ⊆ edges self →
  ∃ b, bf_check ds es = Ok b.
Proof.
  intros Hvalid Hdom. induction es as [|e es IH]; intros Hsub; simpl.
  - eauto.
  - destruct (valid_graph_edge self e Hvalid) as [Hu Hv]; [set_solver |].
    destruct (getitem_dom ds (id (from_node e))) as (du & -> & _); [set_solver |].
    simpl. destruct (IH ltac:(set_solver)) as (b & Hb).
    destruct (is_inf du); [by eauto |].
    destruct (getitem_dom ds (id (to_node e))) as (dv & -> & _); [set_solver |].
    simpl. destruct (dist_ltb _ _); eauto.
Qed.

Lemma pqr_visualizer_valid : valid_graph pqr_visualizer.
Proof. by apply (bool_decide_unpack _); vm_compute. Qed.

(** C2. After the relaxation passes, [bellman_ford] scans every edge once
    more; when some edge (u, v, w) with finite [distances[u]] still has
    [distances[u] + w < distances[v]], the call returns the error
    dictionary, which holds neither a path nor a distance.  On the graph
    P -> Q (1), Q -> R (-3), R -> Q (1), [bellman_ford("P", "R")] returns
    that dictionary. *)
Theorem bellman_ford_negative_cycle (fuel : nat) (self : ShortestPathVisualizer)
    (start end_ : string) :
  valid_graph self →
  (∃ t, bf_passes (size (nodes self) - 1) start (edges self)
          (init_tables self start) = Ok t
        ∧ ((∃ e, e ∈ edges self ∧ relaxable (distances t) e) →
           ∃ r, bellman_ford fuel self start end_ = Ok r
                ∧ r = ErrorResult "Negative cycle detected" "Bellman-Ford"
                ∧ classify r = NegativeCycle
                ∧ result_distance r = None ∧ result_path r = []))
  ∧ bellman_ford fuel pqr_visualizer "P" "R"
    = Ok (ErrorResult "Negative cycle detected" "Bellman-Ford").
Proof.
  intros Hvalid. split; [| by vm_compute].
  destruct (bf_passes_total self start (size (nodes self) - 1)
              (init_tables self start) Hvalid (init_tables_dom self start))
    as (t & Hp & Hdom).
  exists t. split; [done |]. intros Hrel.
  destruct (bf_check_total self (distances t) (edges self) Hvalid) as (b & Hb).
  { rewrite (proj1 Hdom). set_solver. }
  { done. }
  apply (proj2 (bf_check_spec _ _ _ Hb)) in Hrel. subst b.
  eexists. unfold bellman_ford. rewrite Hp. simpl. rewrite Hb. simpl. done.
Qed.

Lemma bellman_ford_negative_cycle_witness :
  bellman_ford 3 pqr_visualizer "P" "R"
  = Ok (ErrorResult "Negative cycle detected" "Bellman-Ford").
Proof.
  apply (bellman_ford_negative_cycle 3 pqr_visualizer "P" "R").
  apply (bool_decide_unpack _). vm_compute. exact I.
Defined.

(** ** The initial tables *)

Lemma init_distances_start (self : ShortestPathVisualizer) (start : string) :
  distances (init_tables self start) !! start = Some (Fin 0).
Proof. simpl. by rewrite lookup_insert_eq. Qed.

Lemma init_distances_other (self : ShortestPathVisualizer) (start v : string) :
  v ∈ dom (nodes self) → v ≠ start →
  distances (init_tables self start) !! v = Some Inf.
Proof.
  intros [n Hn]%elem_of_dom Hne. simpl.
  rewrite lookup_insert_ne by done. by rewrite lookup_fmap, Hn.
Qed.

Lemma init_previous_lookup (self : ShortestPathVisualizer) (start v : string) :
  v ∈ dom (nodes self) → previous (init_tables self start) !! v = Some None.
Proof. intros [n Hn]%elem_of_dom. simpl. by rewrite lookup_fmap, Hn. Qed.

(** ** Queries about identifiers that are not nodes *)

Lemma make_result_missing_end (fuel : nat) (self : ShortestPathVisualizer)
    (start end_ name : string) (t : tables) :
  tables_dom self start t → end_ ∉ dom (nodes self) →
  make_result (S fuel) t end_ name = Raise (KeyError end_).
Proof.
  intros [_ Hp] Hend. unfold make_result. simpl.
  rewrite (getitem_missing (previous t)); [done |]. by rewrite Hp.
Qed.

Lemma reconstruct_None (fuel : nat) (prev : gmap string (option string))
    (path : list string) :
  reconstruct fuel prev None path = Ok path.
Proof. by destruct fuel. Qed.

Lemma make_result_root (fuel : nat) (t : tables) (end_ name : string) (d : dist) :
  previous t !! end_ = Some None → distances t !! end_ = Some d →
  make_result (S fuel) t end_ name
  = Ok (PathResult d (if is_inf d then [] else [end_]) (visit_order t) name).
Proof.
  intros Hp Hd. unfold make_result. simpl. unfold getitem.
  rewrite Hp. simpl. rewrite reconstruct_None. simpl. by rewrite Hd.
Qed.

Lemma make_result_init_unreachable (fuel : nat) (self : ShortestPathVisualizer)
    (start end_ name : string) :
  start ∉ dom (nodes self) → end_ ∈ dom (nodes self) →
  make_result (S fuel) (init_tables self start) end_ name
  = Ok (PathResult Inf [] [] name).
Proof.
  intros Hs He.
  rewrite (make_result_root fuel _ end_ name Inf); [done | |].
  - by apply init_previous_lookup.
  - apply init_distances_other; [done |]. by intros ->.
Qed.

Lemma bf_relax_skip (start : string) (t : tables) (b : bool) (e : Edge) :
  distances t !! id (from_node e) = Some Inf →
  bf_relax start (t, b) e = Ok (t, b).
Proof. intros H. unfold bf_relax, getitem. simpl. by rewrite H. Qed.

Lemma bf_check_skip (ds : gmap string dist) (e : Edge) (es : list Edge) :
  ds !! id (from_node e) = Some Inf → bf_check ds (e :: es) = bf_check ds es.
Proof. intros H. simpl. unfold getitem. by rewrite H. Qed.

Lemma bf_pass_missing_start (self : ShortestPathVisualizer) (start : string)
    (es : list Edge) :
  valid_graph self → start ∉ dom (nodes self) → es ⊆ edges self →
  for_each (bf_relax start) es (init_tables self start, false)
  = Ok (init_tables self start, false).
Proof.
  intros Hvalid Hs. induction es as [|e es IH]; intros Hsub; [done |].
  destruct (valid_graph_edge self e Hvalid) as [Hu _]; [set_solver |].
  cbn [for_each]. rewrite bf_relax_skip.
  - apply IH. set_solver.
  - apply init_distances_other; [done |]. intros Heq. by rewrite Heq in Hu.
Qed.

Lemma bf_check_missing_start (self : ShortestPathVisualizer) (start : string)
    (es : list Edge) :
  valid_graph self → start ∉ dom (nodes self) → es ⊆ edges self →
  bf_check (distances (init_tables self start)) es = Ok false.
Proof.
  intros Hvalid Hs. induction es as [|e es IH]; intros Hsub; [done |].
  destruct (valid_graph_edge self e Hvalid) as [Hu _]; [set_solver |].
  rewrite bf_check_skip.
  - apply IH. set_solver.
  - apply init_distances_other; [done |]. intros Heq. by rewrite Heq in Hu.
Qed.

Lemma dijkstra_while_missing_start (set_iter : gset string → list string)
    (fuel : nat) (self : ShortestPathVisualizer) (start end_ : string) :
  lawful_iter set_iter → start ∉ dom (nodes self) →
  dijkstra_while set_iter (S fuel) (build_graph (edges self)) start end_
    (dom (nodes self)) (init_tables self start)
  = Ok (dom (nodes self), init_tables self start).
Proof.
  intros Hlaw Hs. cbn [dijkstra_while].
  destruct (decide (dom (nodes self) = ∅)) as [| Hne]; [done |].
  unfold dijkstra_body.
  destruct (py_min_total (distances (init_tables self start))
              (set_iter (dom (nodes self)))) as (c & Hmin).
  { by apply set_iter_nonempty. }
  { intros v Hv%(elem_of_set_iter set_iter Hlaw).
    rewrite (proj1 (init_tables_dom self start)). set_solver. }
  rewrite Hmin. apply py_min_spec in Hmin as [Hc _].
  apply (elem_of_set_iter set_iter Hlaw) in Hc.
  cbn [mbind outcome_mbind outcome_bind]. unfold dijkstra_visit, getitem.
  rewrite (init_distances_other self start c Hc); [done |].
  intros Heq. by rewrite Heq in Hc.
Qed.




(** ** The visit order *)

Lemma dijkstra_relax_visit_order (current : string) (t t' : tables)
    (nw : string * Z) :
  dijkstra_relax current t nw = Ok t' → visit_order t' = visit_order t.
Proof.
  unfold dijkstra_relax. intros H.
  apply bind_Ok in H as (dc & _ & H). apply bind_Ok in H as (dn & _ & H).
  destruct (dist_ltb _ _); by simplify_eq.
Qed.

Lemma dijkstra_visit_visit_order (graph : gmap string (list (string * Z)))
    (start end_ : string) (X : gset string) (t : tables) (c : string)
    (fl : flow) (X' : gset string) (t' : tables) :
  dijkstra_visit graph start end_ X t c = Ok (fl, X', t') →
  visit_order_inv start X t → visit_order_inv start X' t'.
Proof.
  unfold dijkstra_visit. intros H (Hnd & Hs & HX).
  apply bind_Ok in H as (dc & _ & H).
  destruct (is_inf dc); [by simplify_eq |].
  destruct (decide (c ∈ X)) as [Hc |]; [| done].
  set (t1 := if decide (c ≠ start) then _ else t) in H.
  assert (H1 : visit_order_inv start (X ∖ {[c]}) t1).
  { subst t1. destruct (decide (c ≠ start)) as [Hne |]; simpl.
    - repeat split.
      + apply NoDup_app. repeat split; [done | | apply NoDup_singleton].
        intros x Hx ->%list_elem_of_singleton. by apply (HX c).
      + intros [Hx | Hx%list_elem_of_singleton]%elem_of_app; [done |].
        by apply Hne.
      + intros x [Hx | ->%list_elem_of_singleton]%elem_of_app; [| set_solver].
        specialize (HX x Hx). set_solver.
    - repeat split; [done.. |]. intros x Hx. specialize (HX x Hx). set_solver. }
  destruct (decide (c = end_)); [by simplify_eq |].
  apply bind_Ok in H as (t2 & Hfor & H). simplify_eq.
  assert (Hvo : visit_order t' = visit_order t1).
  { apply (for_each_inv (λ s, visit_order s = visit_order t1) _ _ _ _ eq_refl)
      in Hfor; [done |].
    intros x s1 s2 _ Hs1 Hr. by rewrite (dijkstra_relax_visit_order _ _ _ _ Hr). }
  unfold visit_order_inv. by rewrite Hvo.
Qed.

Lemma dijkstra_while_visit_order (set_iter : gset string → list string)
    (fuel : nat) (graph : gmap string (list (string * Z))) (start end_ : string)
    (X : gset string) (t : tables) (X' : gset string) (t' : tables) :
  dijkstra_while set_iter fuel graph start end_ X t = Ok (X', t') →
  visit_order_inv start X t → visit_order_inv start X' t'.
Proof.
  revert X t. induction fuel as [|fuel IH]; intros X t H Hinv; simpl in H.
  - destruct (decide (X = ∅)); by simplify_eq.
  - destruct (decide (X = ∅)); [by simplify_eq |].
    apply bind_Ok in H as ([[fl X1] t1] & Hb & H).
    unfold dijkstra_body in Hb. apply bind_Ok in Hb as (c & _ & Hv).
    apply dijkstra_visit_visit_order in Hv; [| done].
    destruct fl; [by eapply IH | by simplify_eq].
Qed.

Lemma bf_relax_visit_order (start : string) (acc acc' : tables * bool) (e : Edge) :
  bf_relax start acc e = Ok acc' →
  visit_order_inv start ∅ (fst acc) → visit_order_inv start ∅ (fst acc').
Proof.
  unfold bf_relax. intros H (Hnd & Hs & _).
  apply bind_Ok in H as (du & _ & H).
  destruct (is_inf du); [by simplify_eq |].
  apply bind_Ok in H as (dv & _ & H).
  destruct (dist_ltb _ _); [| by simplify_eq]. simplify_eq. simpl.
  destruct (decide _) as [[Hnew Hne] |]; [| done].
  repeat split; [| | set_solver].
  - apply NoDup_app. repeat split; [done | | apply NoDup_singleton].
    by intros x Hx ->%list_elem_of_singleton.
  - intros [Hx | Hx%list_elem_of_singleton]%elem_of_app; [done |].
    by apply Hne.
Qed.

Lemma bf_passes_visit_order (n : nat) (start : string) (es : list Edge)
    (t t' : tables) :
  bf_passes n start es t = Ok t' →
  visit_order_inv start ∅ t → visit_order_inv start ∅ t'.
Proof.
  revert t. induction n as [|n IH]; intros t H Hinv; simpl in H; [by simplify_eq |].
  apply bind_Ok in H as ([t1 updated] & Hfor & H).
  apply (for_each_inv (λ acc, visit_order_inv start ∅ (fst acc)) _ _
           (t, false) _ Hinv) in Hfor.
  - destruct updated; [by eapply IH | by simplify_eq].
  - intros e s1 s2 _ Hs1 Hr. by eapply bf_relax_visit_order.
Qed.

Lemma init_visit_order_inv (self : ShortestPathVisualizer) (start : string)
    (X : gset string) :
  visit_order_inv start X (init_tables self start).
Proof.
  repeat split; simpl; [apply NoDup_nil_2 | by intros ?%elem_of_nil |].
  by intros x ?%elem_of_nil.
Qed.

(** C8. The [visit_order] of a result returned by either algorithm never
    holds the start node and never holds a node twice. *)
Theorem visit_order_excludes_start_nodup (set_iter : gset string → list string)
    (fuel : nat) (self : ShortestPathVisualizer) (start end_ : string)
    (r : result) :
  dijkstra set_iter fuel self start end_ = Ok r
  ∨ bellman_ford fuel self start end_ = Ok r →
  (start ∉ result_visit_order r) ∧ NoDup (result_visit_order r).
Proof.
  intros [Hd | Hb].
  - apply dijkstra_result in Hd as (X & t & Hw & Hm).
    apply dijkstra_while_visit_order in Hw as (Hnd & Hs & _);
      [| apply init_visit_order_inv].
    apply make_result_shape in Hm as (d & path & -> & _). by simpl.
  - apply bellman_ford_result in Hb as (t & Hp & [[_ ->] | [_ Hm]]).
    + simpl. split; [by intros ?%elem_of_nil | apply NoDup_nil_2].
    + apply bf_passes_visit_order in Hp as (Hnd & Hs & _);
        [| apply init_visit_order_inv].
      apply make_result_shape in Hm as (d & path & -> & _). by simpl.
Qed.

Lemma visit_order_excludes_start_nodup_witness :
  ("A" ∉ ["E"; "B"; "D"; "C"]) ∧ NoDup ["E"; "B"; "D"; "C"].
Proof.
  apply (visit_order_excludes_start_nodup elements 5 initial_visualizer "A" "C"
           (PathResult (Fin 7) ["A"; "B"; "C"] ["E"; "B"; "D"; "C"] "Dijkstra")).
  left. vm_compute. reflexivity.
Defined.

(** ** Walks *)

Lemma is_walk_app (u v : string) (p q : list Edge) :
  is_walk u (p ++ q) v ↔ ∃ m, is_walk u p m ∧ is_walk m q v.
Proof.
  revert u. induction p as [|e p IH]; intros u; simpl.
  - split; [by eauto | by intros (m & -> & ?)].
  - rewrite IH. split.
    + intros (Hu & m & H1 & H2). eauto.
    + intros (m & [Hu H1] & H2). eauto.
Qed.

Lemma walk_weight_app (p q : list Edge) :
  walk_weight (p ++ q) = (walk_weight p + walk_weight q)%Z.
Proof. induction p as [|e p IH]; simpl; [done |]. rewrite IH. lia. Qed.

Lemma walk_in_nil (self : ShortestPathVisualizer) (u : string) :
  walk_in self u [] u.
Proof. by split. Qed.

Lemma walk_in_snoc (self : ShortestPathVisualizer) (s : string) (p : list Edge)
    (e : Edge) :
  walk_in self s p (id (from_node e)) → e ∈ edges self →
  walk_in self s (p ++ [e]) (id (to_node e))
  ∧ walk_weight (p ++ [e]) = (walk_weight p + weight e)%Z.
Proof.
  intros [Hall Hw] He. repeat split.
  - apply Forall_app. split; [done |]. by apply Forall_singleton.
  - apply is_walk_app. exists (id (from_node e)). by simpl.
  - rewrite walk_weight_app. simpl. lia.
Qed.

Lemma walk_in_app (self : ShortestPathVisualizer) (u m v : string)
    (p q : list Edge) :
  walk_in self u p m → walk_in self m q v → walk_in self u (p ++ q) v.
Proof.
  intros [Hp Hwp] [Hq Hwq]. split; [by apply Forall_app |].
  apply is_walk_app. eauto.
Qed.

(** ** The relaxation invariant *)

Lemma init_tables_inv (self : ShortestPathVisualizer) (start : string) :
  tables_inv self start (init_tables self start).
Proof.
  split.
  - apply init_tables_dom.
  - exists 0%Z. split; [apply init_distances_start |]. split; [lia |].
    intros u. simpl. rewrite lookup_fmap. by destruct (nodes self !! start).
  - intros v Hv Hne. apply init_distances_other; [| done].
    simpl in Hv. rewrite lookup_fmap in Hv. apply elem_of_dom.
    destruct (nodes self !! v); [by eauto | done].
  - exists (λ _, 0%nat). intros v u. simpl. rewrite lookup_fmap.
    by destruct (nodes self !! v).
  - intros v z. simpl. rewrite lookup_insert. case_decide as Hv.
    + intros [= <-]. subst v. exists []. split; [apply walk_in_nil | done].
    + rewrite lookup_fmap. by destruct (nodes self !! v).
Qed.

(** Relaxing an edge that improves its target keeps the invariant. *)
Lemma tables_inv_relax (self : ShortestPathVisualizer) (start : string)
    (t : tables) (e : Edge) (du : Z) (dv : dist) (vo : list string) :
  valid_graph self → tables_inv self start t → e ∈ edges self →
  distances t !! id (from_node e) = Some (Fin du) →
  distances t !! id (to_node e) = Some dv →
  dist_ltb (Fin (du + weight e)) dv = true →
  tables_inv self start
    (mkTables (<[id (to_node e) := Fin (du + weight e)]> (distances t))
              (<[id (to_node e) := Some (id (from_node e))]> (previous t)) vo).
Proof.
  intros Hvalid [Hdom (z & Hz & Hz0 & Hzp) Hroot (rk & Hpred) Hwalk] He Hu Hv Hlt.
  destruct (valid_graph_edge self e Hvalid He) as [Hfrom Hto].
  set (u := id (from_node e)) in *. set (v := id (to_node e)) in *.
  split; simpl.
  - by apply tables_dom_relaxed.
  - destruct (decide (v = start)) as [Heq | Hne].
    + exists (du + weight e)%Z. rewrite Heq, lookup_insert_eq.
      split; [done |].
      assert (dv = Fin z) by (rewrite Heq in Hv; congruence). subst dv.
      simpl in Hlt. apply Z.ltb_lt in Hlt. split; [lia |]. intros; lia.
    + exists z. rewrite !lookup_insert_ne by done. done.
  - intros x Hx Hxs. destruct (decide (v = x)) as [<- | Hne].
    + by rewrite lookup_insert_eq in Hx.
    + rewrite lookup_insert_ne in Hx by done.
      rewrite lookup_insert_ne by done. by apply Hroot.
  - exists (λ x, if decide (x = v) then S (rk u) else rk x).
    intros x y Hxy. destruct (decide (v = x)) as [<- | Hne].
    + rewrite lookup_insert_eq in Hxy. injection Hxy as <-.
      exists e. destruct (decide (u = v)) as [Huv | Huv].
      * exists (du + weight e)%Z, (du + weight e)%Z.
        assert (dv = Fin du) by (rewrite <- Huv in Hv; congruence). subst dv.
        simpl in Hlt. apply Z.ltb_lt in Hlt.
        repeat split; try done.
        -- by rewrite Huv, lookup_insert_eq.
        -- by rewrite lookup_insert_eq.
        -- right. lia.
      * exists du, (du + weight e)%Z. repeat split; try done.
        -- by rewrite lookup_insert_ne.
        -- by rewrite lookup_insert_eq.
        -- left. split; [done |]. simpl.
           repeat case_decide; try done; lia.
    + rewrite lookup_insert_ne in Hxy by done.
      destruct (Hpred x y Hxy)
        as (e0 & du0 & dv0 & He0 & Hf0 & Ht0 & Hdu0 & Hdv0 & Hcase).
      destruct (decide (y = v)) as [Hyv | Hyv].
      * exists e0, (du + weight e)%Z, dv0.
        assert (dv = Fin du0) by (rewrite Hyv in Hdu0; congruence). subst dv.
        simpl in Hlt. apply Z.ltb_lt in Hlt.
        repeat split; try done.
        -- by rewrite Hyv, lookup_insert_eq.
        -- by rewrite lookup_insert_ne.
        -- right. lia.
      * exists e0, du0, dv0. repeat split; try done.
        -- by rewrite lookup_insert_ne.
        -- by rewrite lookup_insert_ne.
        -- simpl. repeat case_decide; try done; by subst.
  - intros x zx. rewrite lookup_insert. case_decide as Hx.
    + intros [= <-]. subst x. destruct (Hwalk u du Hu) as (p & Hp & Hw).
      exists (p ++ [e]). destruct (walk_in_snoc self start p e Hp He) as [H1 H2].
      split; [done |]. rewrite H2, Hw. done.
    + apply Hwalk.
Qed.

Lemma dijkstra_relax_inv (self : ShortestPathVisualizer) (start current : string)
    (t t' : tables) (nw : string * Z) :
  valid_graph self → nw ∈ graph_get (build_graph (edges self)) current →
  dijkstra_relax current t nw = Ok t' →
  tables_inv self start t → tables_inv self start t'.
Proof.
  intros Hvalid Hnw H Hinv. destruct nw as [v w].
  apply elem_of_graph_get in Hnw as (e & He & Hc & Hv & Hw).
  unfold dijkstra_relax in H. simpl in H.
  apply bind_Ok in H as (dc & Hdc%getitem_Ok & H).
  apply bind_Ok in H as (dn & Hdn%getitem_Ok & H).
  destruct (dist_ltb (dist_add dc w) dn) eqn:Hlt; [| by simplify_eq].
  destruct dc as [zc |]; [| done]. simplify_eq.
  by eapply (tables_inv_relax self start t e zc dn).
Qed.

Lemma bf_relax_inv (self : ShortestPathVisualizer) (start : string)
    (acc acc' : tables * bool) (e : Edge) :
  valid_graph self → e ∈ edges self →
  bf_relax start acc e = Ok acc' →
  tables_inv self start (fst acc) → tables_inv self start (fst acc').
Proof.
  intros Hvalid He H Hinv. unfold bf_relax in H.
  apply bind_Ok in H as (du & Hdu%getitem_Ok & H).
  destruct du as [zu |]; cbn [is_inf] in H; [| by simplify_eq].
  apply bind_Ok in H as (dv & Hdv%getitem_Ok & H).
  destruct (dist_ltb (dist_add (Fin zu) (weight e)) dv) eqn:Hlt;
    [| by simplify_eq].
  simplify_eq. by eapply (tables_inv_relax self start (fst acc) e zu dv).
Qed.

Lemma tables_inv_visit_order (self : ShortestPathVisualizer) (start : string)
    (t : tables) (vo : list string) :
  tables_inv self start t →
  tables_inv self start (mkTables (distances t) (previous t) vo).
Proof. intros [Hdom Hs Hroot Hpred Hwalk]. by split. Qed.

Lemma dijkstra_visit_inv (self : ShortestPathVisualizer) (start end_ : string)
    (X : gset string) (t : tables) (c : string) (fl : flow) (X' : gset string)
    (t' : tables) :
  valid_graph self →
  dijkstra_visit (build_graph (edges self)) start end_ X t c = Ok (fl, X', t') →
  tables_inv self start t → tables_inv self start t'.
Proof.
  intros Hvalid H Hinv. unfold dijkstra_visit in H.
  apply bind_Ok in H as (dc & _ & H).
  destruct (is_inf dc); [by simplify_eq |].
  destruct (decide (c ∈ X)); [| done].
  assert (H1 : tables_inv self start
                 (if decide (c ≠ start)
                  then mkTables (distances t) (previous t) (visit_order t ++ [c])
                  else t)).
  { destruct (decide (c ≠ start)); [by apply tables_inv_visit_order | done]. }
  destruct (decide (c = end_)); [by simplify_eq |].
  apply bind_Ok in H as (t2 & Hfor & H). simplify_eq.
  apply (for_each_inv (tables_inv self start) _ _ _ _ H1) in Hfor; [done |].
  intros nw s1 s2 Hnw Hs1 Hr. by eapply dijkstra_relax_inv.
Qed.

Lemma dijkstra_while_inv (set_iter : gset string → list string) (fuel : nat)
    (self : ShortestPathVisualizer) (start end_ : string) (X : gset string)
    (t : tables) (X' : gset string) (t' : tables) :
  valid_graph self →
  dijkstra_while set_iter fuel (build_graph (edges self)) start end_ X t
  = Ok (X', t') →
  tables_inv self start t → tables_inv self start t'.
Proof.
  intros Hvalid. revert X t.
  induction fuel as [|fuel IH]; intros X t H Hinv; simpl in H.
  - destruct (decide (X = ∅)); by simplify_eq.
  - destruct (decide (X = ∅)); [by simplify_eq |].
    apply bind_Ok in H as ([[fl X1] t1] & Hb & H).
    unfold dijkstra_body in Hb. apply bind_Ok in Hb as (c & _ & Hv).
    apply dijkstra_visit_inv in Hv; [| done..].
    destruct fl; [by eapply IH | by simplify_eq].
Qed.

Lemma bf_pass_inv (self : ShortestPathVisualizer) (start : string)
    (acc acc' : tables * bool) :
  valid_graph self →
  for_each (bf_relax start) (edges self) acc = Ok acc' →
  tables_inv self start (fst acc) → tables_inv self start (fst acc').
Proof.
  intros Hvalid H Hinv.
  apply (for_each_inv (λ a, tables_inv self start (fst a)) _ _ acc _ Hinv) in H;
    [done |].
  intros e s1 s2 He Hs1 Hr. by eapply bf_relax_inv.
Qed.

Lemma bf_passes_inv (self : ShortestPathVisualizer) (start : string) (n : nat)
    (t t' : tables) :
  valid_graph self →
  bf_passes n start (edges self) t = Ok t' →
  tables_inv self start t → tables_inv self start t'.
Proof.
  intros Hvalid. revert t.
  induction n as [|n IH]; intros t H Hinv; simpl in H; [by simplify_eq |].
  apply bind_Ok in H as ([t1 updated] & Hfor & H).
  apply bf_pass_inv in Hfor; [| done..].
  destruct updated; [by eapply IH | by simplify_eq].
Qed.

(** ** Path reconstruction *)

(** The reconstructed path is a chain of predecessor links that ends at
    the node it was started from and begins at a node without
    predecessor. *)
Lemma reconstruct_chain (fuel : nat) (prev : gmap string (option string))
    (c : string) (path l : list string) :
  reconstruct fuel prev (Some c) path = Ok l →
  ∃ chain r, l = chain ++ path ∧ last chain = Some c ∧ head chain = Some r
             ∧ prev !! r = Some None
             ∧ (r = c ∨ ∃ x, prev !! x = Some (Some r)).
Proof.
  revert c path. induction fuel as [|fuel IH]; intros c path H; [done |].
  simpl in H. apply bind_Ok in H as (next & Hn%getitem_Ok & H).
  destruct next as [u |].
  - apply IH in H as (chain & r & -> & Hlast & Hhead & Hr & Hor).
    exists (chain ++ [c]), r. repeat split.
    + by rewrite <- app_assoc.
    + by rewrite last_snoc.
    + destruct chain; [done | by simpl in *].
    + done.
    + right. destruct Hor as [-> | Hx]; [by eauto | done].
  - rewrite reconstruct_None in H. simplify_eq.
    exists [c], c. repeat split; by eauto.
Qed.

(** C5. A non-empty path returned by either algorithm begins with the
    start node and ends with the end node. *)
Theorem path_endpoints (set_iter : gset string → list string) (fuel : nat)
    (self : ShortestPathVisualizer) (start end_ : string) (r : result) :
  valid_graph self →
  dijkstra set_iter fuel self start end_ = Ok r
  ∨ bellman_ford fuel self start end_ = Ok r →
  result_path r ≠ [] →
  head (result_path r) = Some start ∧ last (result_path r) = Some end_.
Proof.
  intros Hvalid Hr Hne.
  assert (Hm : ∃ t name, tables_inv self start t
                         ∧ make_result fuel t end_ name = Ok r).
  { destruct Hr as [Hd | Hb].
    - apply dijkstra_result in Hd as (X & t & Hw & Hm).
      exists t, "Dijkstra". split; [| done].
      eapply dijkstra_while_inv; [done.. |]. apply init_tables_inv.
    - apply bellman_ford_result in Hb as (t & Hp & [[_ ->] | [_ Hm]]); [done |].
      exists t, "Bellman-Ford". split; [| done].
      eapply bf_passes_inv; [done.. |]. apply init_tables_inv. }
  destruct Hm as (t & name & Hinv & Hm).
  apply make_result_shape in Hm as (d & path & -> & Hd & Hrec).
  simpl in *. destruct d as [z |]; [| done]. simpl in *.
  apply reconstruct_chain in Hrec as (chain & root & -> & Hlast & Hhead & Hroot & Hor).
  rewrite app_nil_r. split; [| done]. rewrite Hhead. f_equal.
  destruct (decide (root = start)) as [| Hrs]; [done |].
  pose proof (inv_root _ _ _ Hinv root Hroot Hrs) as Hinf.
  destruct Hor as [-> | (x & Hx)]; [congruence |].
  destruct Hinv as [_ _ _ (rk & Hpred) _].
  destruct (Hpred x root Hx) as (e & du & dv & _ & _ & _ & Hdu & _). congruence.
Qed.

Lemma path_endpoints_witness :
  head ["A"; "B"; "C"] = Some "A" ∧ last ["A"; "B"; "C"] = Some "C".
Proof.
  apply (path_endpoints elements 5 initial_visualizer "A" "C"
           (PathResult (Fin 7) ["A"; "B"; "C"] ["E"; "B"; "D"; "C"] "Dijkstra")).
  - apply (bool_decide_unpack _). vm_compute. exact I.
  - left. vm_compute. reflexivity.
  - discriminate.
Defined.

(** ** Dijkstra with non-negative weights *)

Lemma nonneg_weights_edge (self : ShortestPathVisualizer) (e : Edge) :
  nonneg_weights self → e ∈ edges self → (0 ≤ weight e)%Z.
Proof. intros Hnn He. by apply (proj1 (Forall_forall _ _) Hnn). Qed.

Lemma dval_insert_le (ds : gmap string dist) (k x : string) (d : dist) :
  dist_le d (dval ds k) → dist_le (dval (<[k := d]> ds) x) (dval ds x).
Proof.
  intros Hle. rewrite dval_insert. destruct (decide (k = x)) as [<- |]; [done |].
  apply dist_le_refl.
Qed.

Lemma dijkstra_relax_step (self : ShortestPathVisualizer) (start : string)
    (X : gset string) (c : string) (zc : Z) (done : list (string * Z))
    (t t' : tables) (v : string) (w : Z) :
  valid_graph self → nonneg_weights self →
  (v, w) ∈ graph_get (build_graph (edges self)) c →
  relax_inv self start X c zc done t →
  dijkstra_relax c t (v, w) = Ok t' →
  relax_inv self start X c zc (done ++ [(v, w)]) t'.
Proof.
  intros Hvalid Hnn Hvw Hinv Hr.
  pose proof (dijkstra_relax_inv self start c t t' (v, w) Hvalid Hvw Hr
                (rinv_tables _ _ _ _ _ _ _ Hinv)) as Htab.
  apply elem_of_graph_get in Hvw as (e & He & Hec & Hev & Hew).
  pose proof (nonneg_weights_edge self e Hnn He) as Hw0. rewrite Hew in Hw0.
  destruct (valid_graph_edge self e Hvalid He) as [_ Hvn]. rewrite Hev in Hvn.
  destruct Hinv as [_ Hcur Hset Hunv Hrel Hdone Hpred].
  unfold dijkstra_relax in Hr. cbn [fst snd] in Hr.
  apply bind_Ok in Hr as (dc & Hdc%getitem_Ok & Hr).
  apply bind_Ok in Hr as (dn & Hdn%getitem_Ok & Hr).
  assert (dc = Fin zc) by congruence. subst dc.
  change (dist_add (Fin zc) w) with (Fin (zc + w)) in Hr.
  pose proof (dval_lookup _ _ _ Hdn) as Hdv.
  destruct (dist_ltb (Fin (zc + w)) dn) eqn:Hlt.
  - assert (HvX : v ∈ X ∖ {[c]}).
    { destruct (decide (v ∈ X ∖ {[c]})) as [| Hnot]; [done |].
      exfalso. specialize (Hset v Hvn Hnot). rewrite Hdv in Hset.
      destruct dn as [zn |]; simpl in *; [| done].
      apply Z.ltb_lt in Hlt. lia. }
    assert (Hvc : v ≠ c) by set_solver.
    assert (Hnew : dist_le (Fin (zc + w)) (dval (distances t) v)).
    { rewrite Hdv. by apply dist_ltb_le. }
    injection Hr as <-. split; simpl.
    + done.
    + by rewrite lookup_insert_ne.
    + intros u Hu HuX. rewrite dval_insert.
      destruct (decide (v = u)) as [<- |]; [done | by apply Hset].
    + intros x Hx. rewrite dval_insert.
      destruct (decide (v = x)) as [<- |]; [simpl; lia | by apply Hunv].
    + intros e' He' Hfrom. unfold settled_edge.
      rewrite (dval_insert _ v (id (from_node e'))).
      destruct (decide (v = id (from_node e'))) as [Heq |].
      { exfalso. apply Hfrom. rewrite <- Heq. set_solver. }
      eapply dist_le_trans; [by apply dval_insert_le | by apply Hrel].
    + intros v' w' [Hin | Hin%list_elem_of_singleton]%elem_of_app.
      * eapply dist_le_trans; [by apply dval_insert_le | by apply Hdone].
      * injection Hin as -> ->. rewrite dval_insert, decide_True by done.
        simpl. lia.
    + intros x u. rewrite lookup_insert.
      destruct (decide (v = x)) as [<- |]; [| by apply Hpred].
      intros [= <-]. set_solver.
  - injection Hr as <-. split; try done.
    intros v' w' [Hin | Hin%list_elem_of_singleton]%elem_of_app;
      [by apply Hdone |].
    injection Hin as -> ->. rewrite Hdv. by apply dist_ltb_false.
Qed.

Lemma dijkstra_visit_next (self : ShortestPathVisualizer) (start end_ : string)
    (X : gset string) (t : tables) (c : string) (X' : gset string) (t' : tables) :
  valid_graph self → nonneg_weights self →
  dijkstra_inv self start X t → c ∈ X →
  (∀ v, v ∈ X → dist_le (dval (distances t) c) (dval (distances t) v)) →
  dijkstra_visit (build_graph (edges self)) start end_ X t c = Ok (Next, X', t') →
  dijkstra_inv self start X' t'.
Proof.
  intros Hvalid Hnn [Htab Hsub Hle Hrel Hpred] Hc Hmin H.
  unfold dijkstra_visit in H.
  apply bind_Ok in H as (dc & Hdc%getitem_Ok & H).
  destruct dc as [zc |]; cbn [is_inf] in H; [| done].
  pose proof (dval_lookup _ _ _ Hdc) as Hdvc.
  destruct (decide (c ∈ X)) as [_ |]; [| done].
  destruct (decide (c = end_)) as [| Hce]; [done |].
  apply bind_Ok in H as (t2 & Hfor & H). injection H as <- <-.
  assert (H1 : relax_inv self start X c zc []
                 (if decide (c ≠ start)
                  then mkTables (distances t) (previous t) (visit_order t ++ [c])
                  else t)).
  { assert (H0 : ∀ vo, relax_inv self start X c zc []
                         (mkTables (distances t) (previous t) vo)).
    { intros vo. split; cbn [distances previous visit_order].
      - by apply tables_inv_visit_order.
      - done.
      - intros u Hu HuX. rewrite <- Hdvc.
        destruct (decide (u = c)) as [-> |]; [apply dist_le_refl |].
        apply Hle; [done | set_solver | done].
      - intros v Hv. rewrite <- Hdvc. apply Hmin. set_solver.
      - done.
      - by intros v w ?%elem_of_nil.
      - intros v u Hvu. specialize (Hpred v u Hvu). set_solver. }
    destruct (decide (c ≠ start)); [apply H0 |].
    destruct t as [d p vo]. apply H0. }
  apply (for_each_prefix_inv (relax_inv self start X c zc) _ _ _ _ H1) in Hfor.
  - destruct Hfor as [Htab2 Hcur2 Hset2 Hunv2 Hrel2 Hdone2 Hpred2].
    split.
    + done.
    + set_solver.
    + intros u v Hu HuX Hv.
      eapply dist_le_trans; [by apply Hset2 | by apply Hunv2].
    + intros e He Hfrom. destruct (decide (id (from_node e) ∈ X)) as [HinX |].
      * assert (Hfc : id (from_node e) = c).
        { destruct (decide (id (from_node e) = c)) as [| Hne]; [done |].
          exfalso. apply Hfrom. apply elem_of_difference. split; [done |].
          by intros ?%elem_of_singleton. }
        unfold settled_edge. rewrite Hfc, (dval_lookup _ _ _ Hcur2). simpl.
        apply Hdone2. apply elem_of_graph_get. eauto.
      * by apply Hrel2.
    + done.
  - intros done [v w] rest s1 s2 Hitems Hs1 Hr.
    eapply dijkstra_relax_step; [done | done | | done | done].
    rewrite Hitems. set_solver.
Qed.


Lemma walk_in_snoc_inv (self : ShortestPathVisualizer) (s v : string)
    (p : list Edge) (e : Edge) :
  walk_in self s (p ++ [e]) v →
  walk_in self s p (id (from_node e)) ∧ e ∈ edges self ∧ id (to_node e) = v.
Proof.
  intros [Hall Hw]. apply Forall_app in Hall as [Hp He].
  apply Forall_inv in He.
  apply is_walk_app in Hw as (m & Hm & [Hfrom Hto]). simpl in Hto.
  subst m. by repeat split.
Qed.

(** Every walk from the start is at least as long as the distance of
    its end when that is settled, and as the distance of some unvisited
    node otherwise. *)
Lemma dijkstra_lower_bound (self : ShortestPathVisualizer) (start : string)
    (X : gset string) (t : tables) :
  valid_graph self → nonneg_weights self → dijkstra_inv self start X t →
  ∀ p v, walk_in self start p v →
    (v ∉ X → dist_le (dval (distances t) v) (Fin (walk_weight p)))
    ∧ (v ∈ X → ∃ x, x ∈ X ∧ dist_le (dval (distances t) x) (Fin (walk_weight p))).
Proof.
  intros Hvalid Hnn [Htab Hsub Hle Hrel Hpred].
  induction p as [|e p IH] using rev_ind; intros v Hw.
  - destruct Hw as [_ Hw]. simpl in Hw. subst v.
    destruct (inv_start _ _ _ Htab) as (z & Hz & Hz0 & _).
    rewrite (dval_lookup _ _ _ Hz). split; [done |].
    intros Hs. exists start. by rewrite (dval_lookup _ _ _ Hz).
  - apply walk_in_snoc_inv in Hw as (Hp & He & Hv).
    destruct (IH _ Hp) as [IH1 IH2].
    pose proof (nonneg_weights_edge self e Hnn He) as Hw0.
    destruct (valid_graph_edge self e Hvalid He) as [_ Hvn]. rewrite Hv in Hvn.
    rewrite walk_weight_app. simpl. rewrite Z.add_0_r.
    assert (Hcase : ((id (from_node e) ∉ X)
                     ∧ dist_le (dval (distances t) v)
                         (Fin (walk_weight p + weight e)))
                    ∨ ∃ x, x ∈ X ∧ dist_le (dval (distances t) x)
                                     (Fin (walk_weight p + weight e))).
    { destruct (decide (id (from_node e) ∈ X)) as [Hin | Hout].
      - right. destruct (IH2 Hin) as (x & Hx & Hxle). exists x. split; [done |].
        eapply dist_le_trans; [done |]. simpl. lia.
      - left. split; [done |]. specialize (Hrel e He Hout).
        unfold settled_edge in Hrel. rewrite Hv in Hrel.
        eapply dist_le_trans; [done |].
        apply (dist_add_mono _ (Fin (walk_weight p)) (weight e)). by apply IH1. }
    split.
    + intros HvX. destruct Hcase as [[_ H] | (x & Hx & Hxle)]; [done |].
      eapply dist_le_trans; [by apply Hle | done].
    + intros HvX. destruct Hcase as [[_ H] | (x & Hx & Hxle)]; by eauto.
Qed.

Lemma tables_inv_ext (self : ShortestPathVisualizer) (start : string)
    (t t' : tables) :
  distances t' = distances t → previous t' = previous t →
  tables_inv self start t → tables_inv self start t'.
Proof.
  destruct t' as [d p vo]. simpl. intros -> ->. apply tables_inv_visit_order.
Qed.

Lemma final_tables_ext (self : ShortestPathVisualizer) (start end_ : string)
    (t t' : tables) :
  distances t' = distances t → previous t' = previous t →
  final_tables self start end_ t → final_tables self start end_ t'.
Proof.
  intros Hd Hp [Hinv Hlow Hpred]. split.
  - by eapply tables_inv_ext.
  - by rewrite Hd.
  - rewrite Hd, Hp. done.
Qed.

Lemma dijkstra_inv_final (self : ShortestPathVisualizer) (start end_ : string)
    (X : gset string) (t : tables) :
  valid_graph self → nonneg_weights self → dijkstra_inv self start X t →
  (end_ ∈ X →
   ∃ c, c ∈ X
        ∧ (∀ v, v ∈ X → dist_le (dval (distances t) c) (dval (distances t) v))
        ∧ (dval (distances t) c = Inf ∨ c = end_)) →
  final_tables self start end_ t.
Proof.
  intros Hvalid Hnn Hinv Hend. split.
  - apply (dinv_tables _ _ _ _ Hinv).
  - intros p Hp.
    destruct (dijkstra_lower_bound self start X t Hvalid Hnn Hinv p end_ Hp)
      as [H1 H2].
    destruct (decide (end_ ∈ X)) as [Hin | Hout]; [| by apply H1].
    destruct (H2 Hin) as (x & Hx & Hxle).
    destruct (Hend Hin) as (c & Hc & Hmin & Hcase).
    assert (Hcle : dist_le (dval (distances t) c) (Fin (walk_weight p))).
    { apply (dist_le_trans _ (dval (distances t) x)); [by apply Hmin | done]. }
    destruct Hcase as [Hinf | ->]; [| done]. by rewrite Hinf in Hcle.
  - intros v u Hvu e He Hfrom. apply (dinv_relaxed _ _ _ _ Hinv); [done |].
    rewrite Hfrom. by apply (dinv_pred _ _ _ _ Hinv v u).
Qed.

Lemma init_dijkstra_inv (self : ShortestPathVisualizer) (start : string) :
  valid_graph self →
  dijkstra_inv self start (dom (nodes self)) (init_tables self start).
Proof.
  intros Hvalid. split.
  - apply init_tables_inv.
  - done.
  - intros u v Hu Hnu. done.
  - intros e He Hfrom. by destruct (valid_graph_edge self e Hvalid He).
  - intros v u. simpl. rewrite lookup_fmap. by destruct (nodes self !! v).
Qed.

(** The three ways an iteration can go once [current] is chosen. *)
Lemma dijkstra_visit_cases (graph : gmap string (list (string * Z)))
    (start end_ : string) (X : gset string) (t : tables) (c : string)
    (fl : flow) (X' : gset string) (t' : tables) :
  dijkstra_visit graph start end_ X t c = Ok (fl, X', t') →
  (dval (distances t) c = Inf ∧ fl = Break ∧ X' = X ∧ t' = t)
  ∨ (c = end_ ∧ fl = Break ∧ X' = X ∖ {[c]}
     ∧ distances t' = distances t ∧ previous t' = previous t)
  ∨ (c ≠ end_ ∧ fl = Next ∧ X' = X ∖ {[c]}).
Proof.
  unfold dijkstra_visit. intros H.
  apply bind_Ok in H as (dc & Hdc%getitem_Ok & H).
  destruct dc as [zc |]; cbn [is_inf] in H.
  - destruct (decide (c ∈ X)) as [_ |]; [| done].
    destruct (decide (c = end_)) as [Hce | Hce].
    + right. left. injection H as <- <- <-.
      repeat split; try done; by destruct (decide (c ≠ start)).
    + right. right. apply bind_Ok in H as (t2 & _ & H).
      injection H as <- <- <-. done.
  - left. injection H as <- <- <-. by rewrite (dval_lookup _ _ _ Hdc).
Qed.

(** The tables the main loop ends with are final. *)
Lemma dijkstra_while_final (set_iter : gset string → list string) (fuel : nat)
    (self : ShortestPathVisualizer) (start end_ : string) (X : gset string)
    (t : tables) (X' : gset string) (t' : tables) :
  lawful_iter set_iter → valid_graph self → nonneg_weights self →
  dijkstra_inv self start X t →
  dijkstra_while set_iter fuel (build_graph (edges self)) start end_ X t
  = Ok (X', t') →
  final_tables self start end_ t'.
Proof.
  intros Hlaw Hvalid Hnn. revert X t.
  assert (Hempty : ∀ t, dijkstra_inv self start ∅ t →
                        final_tables self start end_ t).
  { intros t Hinv. apply (dijkstra_inv_final self start end_ ∅); [done.. |].
    intros Hin. by apply elem_of_empty in Hin. }
  induction fuel as [|fuel IH]; intros X t Hinv H; simpl in H.
  - destruct (decide (X = ∅)) as [-> |]; [| done].
    injection H as <- <-. by apply Hempty.
  - destruct (decide (X = ∅)) as [-> |].
    { injection H as <- <-. by apply Hempty. }
    apply bind_Ok in H as ([[fl X1] t1] & Hb & H).
    unfold dijkstra_body in Hb. apply bind_Ok in Hb as (c & Hmin & Hv).
    apply py_min_spec in Hmin as [Hc Hmin].
    apply (elem_of_set_iter set_iter Hlaw) in Hc.
    assert (Hmin' : ∀ v, v ∈ X →
                         dist_le (dval (distances t) c) (dval (distances t) v)).
    { intros v Hvx. apply Hmin. by apply (elem_of_set_iter set_iter Hlaw). }
    destruct (dijkstra_visit_cases _ _ _ _ _ _ _ _ _ Hv)
      as [(Hinf & -> & -> & ->) | [(-> & -> & -> & Hd & Hp) | (Hce & -> & ->)]].
    + injection H as <- <-.
      apply (dijkstra_inv_final self start end_ X); [done.. |]. by eauto.
    + injection H as <- <-. apply (final_tables_ext self start end_ t); [done.. |].
      apply (dijkstra_inv_final self start end_ X); [done.. |]. by eauto.
    + apply (IH (X ∖ {[c]}) t1); [| done].
      by eapply dijkstra_visit_next.
Qed.

(** ** Final tables: reconstruction terminates, the distance is shortest *)

Lemma final_tables_ranked (self : ShortestPathVisualizer) (start end_ : string)
    (t : tables) :
  valid_graph self → final_tables self start end_ t →
  ∃ rk : string → nat, ∀ v u, previous t !! v = Some (Some u) →
    (rk u < rk v)%nat ∧ u ∈ dom (nodes self).
Proof.
  intros Hvalid [Hinv _ Hpred].
  destruct (inv_pred _ _ _ Hinv) as (rk & Hrk). exists rk. intros v u Hvu.
  destruct (Hrk v u Hvu) as (e & du & dv & He & Hfrom & Hto & Hdu & Hdv & Hcase).
  split.
  - destruct Hcase as [[_ Hlt] | Hslack]; [done |]. exfalso.
    specialize (Hpred v u Hvu e He Hfrom). unfold settled_edge in Hpred.
    rewrite Hfrom, Hto in Hpred.
    rewrite (dval_lookup _ _ _ Hdu), (dval_lookup _ _ _ Hdv) in Hpred.
    simpl in Hpred. lia.
  - rewrite <- Hfrom. by destruct (valid_graph_edge self e Hvalid He).
Qed.

Lemma reconstruct_ranked (prev : gmap string (option string)) (N : gset string)
    (rk : string → nat) (n : nat) (c : string) (path : list string) :
  dom prev = N →
  (∀ v u, prev !! v = Some (Some u) → (rk u < rk v)%nat ∧ u ∈ N) →
  (rk c < n)%nat → c ∈ N →
  ∃ l, reconstruct n prev (Some c) path = Ok l.
Proof.
  intros Hdom Hrk. revert c path.
  induction n as [|n IH]; intros c path Hlt Hc; [lia |].
  simpl. destruct (getitem_dom prev c) as (next & -> & Hnext); [by rewrite Hdom |].
  simpl. destruct next as [u |].
  - destruct (Hrk c u Hnext) as [Hu HuN]. apply IH; [lia | done].
  - rewrite reconstruct_None. eauto.
Qed.

Lemma final_make_result (self : ShortestPathVisualizer) (start end_ name : string)
    (t : tables) :
  valid_graph self → end_ ∈ dom (nodes self) → final_tables self start end_ t →
  ∃ fuel d path,
    make_result fuel t end_ name
    = Ok (PathResult d (if is_inf d then [] else path) (visit_order t) name)
    ∧ distances t !! end_ = Some d
    ∧ shortest_distance self start end_ d.
Proof.
  intros Hvalid Hend Hfin.
  destruct (final_tables_ranked self start end_ t Hvalid Hfin) as (rk & Hrk).
  destruct Hfin as [Hinv Hlow _].
  destruct (inv_dom _ _ _ Hinv) as [Hdd Hdp].
  destruct (reconstruct_ranked (previous t) (dom (nodes self)) rk
              (S (rk end_)) end_ [] Hdp Hrk) as (path & Hrec); [lia | done |].
  destruct (getitem_dom (distances t) end_) as (d & Hget & Hd).
  { rewrite Hdd. set_solver. }
  exists (S (rk end_)), d, path. split; [| split; [done |]].
  - unfold make_result. rewrite Hrec. simpl. by rewrite Hget.
  - split.
    + intros p Hp. rewrite <- (dval_lookup _ _ _ Hd). by apply Hlow.
    + intros z ->. by apply (inv_walk _ _ _ Hinv).
Qed.

Lemma shortest_distance_unique (self : ShortestPathVisualizer)
    (start v : string) (d1 d2 : dist) :
  shortest_distance self start v d1 → shortest_distance self start v d2 →
  d1 = d2.
Proof.
  intros [Hl1 Hw1] [Hl2 Hw2].
  destruct d1 as [z1 |], d2 as [z2 |]; [| | | done].
  - destruct (Hw1 z1 eq_refl) as (p1 & Hp1 & <-).
    destruct (Hw2 z2 eq_refl) as (p2 & Hp2 & <-).
    specialize (Hl1 p2 Hp2). specialize (Hl2 p1 Hp1). simpl in *.
    f_equal. lia.
  - destruct (Hw1 z1 eq_refl) as (p1 & Hp1 & <-). by specialize (Hl2 p1 Hp1).
  - destruct (Hw2 z2 eq_refl) as (p2 & Hp2 & <-). by specialize (Hl1 p2 Hp2).
Qed.

(** With non-negative weights [dijkstra] returns, and the distance it
    returns is that of a shortest walk. *)
Lemma dijkstra_correct (set_iter : gset string → list string)
    (self : ShortestPathVisualizer) (start end_ : string) :
  lawful_iter set_iter → valid_graph self → nonneg_weights self →
  end_ ∈ dom (nodes self) →
  ∃ fuel X t d path,
    dijkstra_while set_iter fuel (build_graph (edges self)) start end_
      (dom (nodes self)) (init_tables self start) = Ok (X, t)
    ∧ distances t !! end_ = Some d
    ∧ dijkstra set_iter fuel self start end_
      = Ok (PathResult d (if is_inf d then [] else path) (visit_order t) "Dijkstra")
    ∧ shortest_distance self start end_ d.
Proof.
  intros Hlaw Hvalid Hnn Hend.
  destruct (dijkstra_while_total set_iter Hlaw self Hvalid start end_
              (size (nodes self)) (dom (nodes self)) (init_tables self start))
    as (X & t & Hw & _ & _).
  { by rewrite size_dom. }
  { apply init_tables_dom. }
  { done. }
  pose proof (dijkstra_while_final set_iter _ self start end_ _ _ _ _
                Hlaw Hvalid Hnn (init_dijkstra_inv self start Hvalid) Hw) as Hfin.
  destruct (final_make_result self start end_ "Dijkstra" t Hvalid Hend Hfin)
    as (fuel & d & path & Hm & Hd & Hsd).
  exists (max fuel (size (nodes self))), X, t, d, path.
  assert (Hw' : dijkstra_while set_iter (max fuel (size (nodes self)))
                  (build_graph (edges self)) start end_ (dom (nodes self))
                  (init_tables self start) = Ok (X, t)).
  { eapply dijkstra_while_fuel_mono; [| done]. lia. }
  split; [done |]. split; [done |]. split; [| done].
  unfold dijkstra. rewrite Hw'. simpl.
  eapply make_result_fuel_mono; [| done]. lia.
Qed.

(** ** Further properties of the code *)

(** X1. The adjacency table built at the start of [dijkstra] gives, for
    every node, the (neighbour, weight) pairs of exactly its outgoing
    edges, in the order of [self.edges], parallel edges included; a node
    without outgoing edges gets the empty list. *)
Theorem adjacency_lists_outgoing_edges (es : list Edge) (c : string) :
  graph_get (build_graph es) c
  = (λ e, (id (to_node e), weight e)) <$> filter (λ e, id (from_node e) = c) es.
Proof. apply graph_get_build. Qed.

Lemma shortest_distance_Inf (self : ShortestPathVisualizer) (start v : string)
    (d : dist) :
  shortest_distance self start v d →
  d = Inf ↔ ¬ ∃ p, walk_in self start p v.
Proof.
  intros [Hlow Hwalk]. split.
  - intros -> (p & Hp). by specialize (Hlow p Hp).
  - intros Hno. destruct d as [z |]; [| done].
    destruct (Hwalk z eq_refl) as (p & Hp & _). destruct Hno. eauto.
Qed.

(** X2. With non-negative weights and an end that is a node, [dijkstra]
    returns, and the distance it returns is the weight of a shortest walk
    from start to end: no walk weighs less, and a finite distance is the
    weight of some walk. *)
Theorem dijkstra_returns_shortest_distance (set_iter : gset string → list string)
    (self : ShortestPathVisualizer) (start end_ : string) :
  lawful_iter set_iter → valid_graph self → nonneg_weights self →
  end_ ∈ dom (nodes self) →
  ∃ fuel d path vo,
    (∀ fuel', (fuel ≤ fuel')%nat →
              dijkstra set_iter fuel' self start end_
              = Ok (PathResult d path vo "Dijkstra"))
    ∧ shortest_distance self start end_ d.
Proof.
  intros Hlaw Hvalid Hnn Hend.
  destruct (dijkstra_correct set_iter self start end_ Hlaw Hvalid Hnn Hend)
    as (fuel & X & t & d & path & _ & _ & Hr & Hsd).
  exists fuel, d, (if is_inf d then [] else path), (visit_order t).
  split; [| done]. intros fuel' Hle. by eapply dijkstra_fuel_mono.
Qed.

Lemma dijkstra_returns_shortest_distance_witness :
  ∃ fuel d path vo,
    (∀ fuel', (fuel ≤ fuel')%nat →
              dijkstra elements fuel' initial_visualizer "A" "C"
              = Ok (PathResult d path vo "Dijkstra"))
    ∧ shortest_distance initial_visualizer "A" "C" d.
Proof.
  apply (dijkstra_returns_shortest_distance elements initial_visualizer "A" "C").
  - exact lawful_iter_elements.
  - apply (bool_decide_unpack _). vm_compute. exact I.
  - apply (bool_decide_unpack _). vm_compute. exact I.
  - apply (bool_decide_unpack _). vm_compute. exact I.
Defined.

(** X3. With non-negative weights and an end that is a node, the result
    of [dijkstra] has an infinite distance (and then an empty path)
    exactly when the graph has no walk from start to end. *)
Theorem dijkstra_unreachable_iff_no_walk (set_iter : gset string → list string)
    (self : ShortestPathVisualizer) (start end_ : string) :
  lawful_iter set_iter → valid_graph self → nonneg_weights self →
  end_ ∈ dom (nodes self) →
  ∃ fuel r,
    (∀ fuel', (fuel ≤ fuel')%nat → dijkstra set_iter fuel' self start end_ = Ok r)
    ∧ (classify r = Unreachable ↔ ¬ ∃ p, walk_in self start p end_)
    ∧ (classify r = Unreachable → result_path r = []).
Proof.
  intros Hlaw Hvalid Hnn Hend.
  destruct (dijkstra_correct set_iter self start end_ Hlaw Hvalid Hnn Hend)
    as (fuel & X & t & d & path & _ & _ & Hr & Hsd).
  exists fuel. eexists. split.
  { intros fuel' Hle. by eapply dijkstra_fuel_mono. }
  rewrite <- (shortest_distance_Inf self start end_ d Hsd).
  destruct d as [z |]; simpl; (split; [split |]); intros H; done || discriminate.
Qed.

Lemma dijkstra_unreachable_iff_no_walk_witness :
  ∃ fuel r,
    (∀ fuel', (fuel ≤ fuel')%nat → dijkstra elements fuel' xy_visualizer "Y" "X" = Ok r)
    ∧ (classify r = Unreachable ↔ ¬ ∃ p, walk_in xy_visualizer "Y" p "X")
    ∧ (classify r = Unreachable → result_path r = []).
Proof.
  apply (dijkstra_unreachable_iff_no_walk elements xy_visualizer "Y" "X").
  - exact lawful_iter_elements.
  - apply (bool_decide_unpack _). vm_compute. exact I.
  - apply (bool_decide_unpack _). vm_compute. exact I.
  - apply (bool_decide_unpack _). vm_compute. exact I.
Defined.

(** ** Properties kept by every relaxation *)

Lemma dijkstra_relax_closed (self : ShortestPathVisualizer)
    (P : gmap string dist → gmap string (option string) → Prop)
    (current : string) (t t' : tables) (nw : string * Z) :
  relax_closed self P →
  nw ∈ graph_get (build_graph (edges self)) current →
  dijkstra_relax current t nw = Ok t' →
  P (distances t) (previous t) → P (distances t') (previous t').
Proof.
  intros HP Hnw H Hinv. destruct nw as [v w].
  apply elem_of_graph_get in Hnw as (e & He & Hc & Hv & Hw).
  unfold dijkstra_relax in H. cbn [fst snd] in H.
  apply bind_Ok in H as (dc & Hdc%getitem_Ok & H).
  apply bind_Ok in H as (dn & Hdn%getitem_Ok & H).
  destruct (dist_ltb (dist_add dc w) dn) eqn:Hlt.
  - destruct dc as [zc |]; [| done]. injection H as <-. simpl.
    rewrite <- Hc, <- Hv, <- Hw. apply (HP _ _ e zc dn); try done.
    + by rewrite Hc.
    + by rewrite Hv.
    + by rewrite Hw.
  - by injection H as <-.
Qed.

Lemma dijkstra_visit_closed (self : ShortestPathVisualizer)
    (P : gmap string dist → gmap string (option string) → Prop)
    (start end_ : string) (X : gset string) (t : tables) (c : string)
    (fl : flow) (X' : gset string) (t' : tables) :
  relax_closed self P →
  dijkstra_visit (build_graph (edges self)) start end_ X t c = Ok (fl, X', t') →
  P (distances t) (previous t) → P (distances t') (previous t').
Proof.
  intros HP H Hinv. unfold dijkstra_visit in H.
  apply bind_Ok in H as (dc & _ & H).
  destruct (is_inf dc); [by injection H as <- <- <- |].
  destruct (decide (c ∈ X)) as [_ |]; [| done].
  assert (H1 : ∀ t1, t1 = (if decide (c ≠ start)
                           then mkTables (distances t) (previous t)
                                  (visit_order t ++ [c])
                           else t) →
                     P (distances t1) (previous t1)).
  { intros t1 ->. by destruct (decide (c ≠ start)). }
  destruct (decide (c = end_)) as [| Hce].
  { injection H as <- <- <-. by apply H1. }
  apply bind_Ok in H as (t2 & Hfor & H). injection H as <- <- <-.
  apply (for_each_inv (λ s, P (distances s) (previous s)) _ _ _ _
           (H1 _ eq_refl)) in Hfor; [done |].
  intros nw s1 s2 Hnw Hs1 Hr. by eapply dijkstra_relax_closed.
Qed.

Lemma dijkstra_while_closed (set_iter : gset string → list string)
    (self : ShortestPathVisualizer)
    (P : gmap string dist → gmap string (option string) → Prop)
    (fuel : nat) (start end_ : string) (X : gset string) (t : tables)
    (X' : gset string) (t' : tables) :
  relax_closed self P →
  dijkstra_while set_iter fuel (build_graph (edges self)) start end_ X t
  = Ok (X', t') →
  P (distances t) (previous t) → P (distances t') (previous t').
Proof.
  intros HP. revert X t.
  induction fuel as [|fuel IH]; intros X t H Hinv; simpl in H.
  - destruct (decide (X = ∅)); [by injection H as <- <- | done].
  - destruct (decide (X = ∅)); [by injection H as <- <- |].
    apply bind_Ok in H as ([[fl X1] t1] & Hb & H).
    unfold dijkstra_body in Hb. apply bind_Ok in Hb as (c & _ & Hv).
    apply (dijkstra_visit_closed self P) in Hv; [| done..].
    destruct fl; [by eapply IH | by injection H as <- <-].
Qed.

Lemma bf_relax_closed (self : ShortestPathVisualizer)
    (P : gmap string dist → gmap string (option string) → Prop)
    (start : string) (acc acc' : tables * bool) (e : Edge) :
  relax_closed self P → e ∈ edges self →
  bf_relax start acc e = Ok acc' →
  P (distances (fst acc)) (previous (fst acc)) →
  P (distances (fst acc')) (previous (fst acc')).
Proof.
  intros HP He H Hinv. unfold bf_relax in H.
  apply bind_Ok in H as (du & Hdu%getitem_Ok & H).
  destruct du as [zu |]; cbn [is_inf] in H; [| by injection H as <-].
  apply bind_Ok in H as (dv & Hdv%getitem_Ok & H).
  destruct (dist_ltb (dist_add (Fin zu) (weight e)) dv) eqn:Hlt;
    [| by injection H as <-].
  injection H as <-. simpl. by apply (HP _ _ e zu dv).
Qed.

Lemma bf_passes_closed (self : ShortestPathVisualizer)
    (P : gmap string dist → gmap string (option string) → Prop)
    (start : string) (n : nat) (t t' : tables) :
  relax_closed self P →
  bf_passes n start (edges self) t = Ok t' →
  P (distances t) (previous t) → P (distances t') (previous t').
Proof.
  intros HP. revert t.
  induction n as [|n IH]; intros t H Hinv; simpl in H; [by injection H as <- |].
  apply bind_Ok in H as ([t1 updated] & Hfor & H).
  apply (for_each_inv (λ a, P (distances (fst a)) (previous (fst a))) _ _
           (t, false) _ Hinv) in Hfor.
  - destruct updated; [by eapply IH | by injection H as <-].
  - intros e s1 s2 He Hs1 Hr. by eapply bf_relax_closed.
Qed.

(** ** The returned path is a walk whose weight is the returned distance *)

Lemma start_root_closed (self : ShortestPathVisualizer) (start : string) :
  relax_closed self (start_root start).
Proof.
  intros d p e du dv Hroot He Hu Hv Hlt. unfold start_root in *.
  destruct (decide (id (to_node e) = start)) as [Heq | Hne].
  - rewrite Heq, lookup_insert_eq. done.
  - rewrite !lookup_insert_ne by done. done.
Qed.

Lemma start_root_init (self : ShortestPathVisualizer) (start : string) :
  start_root start (distances (init_tables self start))
    (previous (init_tables self start)).
Proof. intros _. apply init_distances_start. Qed.

Lemma final_tables_tight (self : ShortestPathVisualizer) (start end_ : string)
    (t : tables) :
  final_tables self start end_ t →
  ∀ v u, previous t !! v = Some (Some u) →
    ∃ e du, e ∈ edges self ∧ id (from_node e) = u ∧ id (to_node e) = v
            ∧ distances t !! u = Some (Fin du)
            ∧ distances t !! v = Some (Fin (du + weight e)).
Proof.
  intros [Hinv _ Hpred] v u Hvu.
  destruct (inv_pred _ _ _ Hinv) as (rk & Hrk).
  destruct (Hrk v u Hvu) as (e & du & dv & He & Hfrom & Hto & Hdu & Hdv & Hcase).
  exists e, du. repeat split; try done.
  assert (dv = (du + weight e)%Z) as <-; [| done].
  destruct Hcase as [[Heq _] | Hslack]; [done |]. exfalso.
  specialize (Hpred v u Hvu e He Hfrom). unfold settled_edge in Hpred.
  rewrite Hfrom, Hto in Hpred.
  rewrite (dval_lookup _ _ _ Hdu), (dval_lookup _ _ _ Hdv) in Hpred.
  simpl in Hpred. lia.
Qed.

Lemma reconstruct_walk (self : ShortestPathVisualizer)
    (d : gmap string dist) (prev : gmap string (option string)) (fuel : nat)
    (c : string) (zc : Z) (path l : list string) :
  (∀ v u, prev !! v = Some (Some u) →
     ∃ e du, e ∈ edges self ∧ id (from_node e) = u ∧ id (to_node e) = v
             ∧ d !! u = Some (Fin du) ∧ d !! v = Some (Fin (du + weight e))) →
  reconstruct fuel prev (Some c) path = Ok l →
  d !! c = Some (Fin zc) →
  ∃ r zr p, prev !! r = Some None ∧ d !! r = Some (Fin zr)
            ∧ walk_in self r p c ∧ (zr + walk_weight p = zc)%Z
            ∧ l = walk_nodes r p ++ path.
Proof.
  intros Htight. revert c zc path.
  induction fuel as [|fuel IH]; intros c zc path H Hc; [done |].
  simpl in H. apply bind_Ok in H as (next & Hn%getitem_Ok & H).
  destruct next as [u |].
  - destruct (Htight c u Hn) as (e & du & He & Hfrom & Hto & Hdu & Hdc).
    destruct (IH u du (c :: path) H Hdu) as (r & zr & p & Hr & Hzr & Hw & Hsum & ->).
    exists r, zr, (p ++ [e]).
    rewrite <- Hfrom in Hw.
    destruct (walk_in_snoc self r p e Hw He) as [Hw' Hweight].
    rewrite Hto in Hw'.
    split; [done |]. split; [done |]. split; [done |]. split.
    + rewrite Hweight. assert (zc = (du + weight e)%Z) by congruence. lia.
    + unfold walk_nodes. rewrite map_app. simpl. rewrite Hto.
      by rewrite <- !app_assoc.
  - rewrite reconstruct_None in H. injection H as <-.
    exists c, zc, [].
    split; [done |]. split; [done |]. split; [apply walk_in_nil |].
    split; [simpl; lia | done].
Qed.

(** For final tables, a finite distance comes with a path that is a
    walk from start to end of exactly that weight. *)
Lemma final_path_walk (self : ShortestPathVisualizer) (start end_ : string)
    (t : tables) (fuel : nat) (path : list string) (z : Z) :
  final_tables self start end_ t →
  start_root start (distances t) (previous t) →
  reconstruct fuel (previous t) (Some end_) [] = Ok path →
  distances t !! end_ = Some (Fin z) →
  ∃ p, walk_in self start p end_ ∧ walk_weight p = z
       ∧ path = walk_nodes start p.
Proof.
  intros Hfin Hsr Hrec Hz.
  destruct (reconstruct_walk self (distances t) (previous t) fuel end_ z [] path
              (final_tables_tight self start end_ t Hfin) Hrec Hz)
    as (r & zr & p & Hr & Hzr & Hw & Hsum & ->).
  destruct (decide (r = start)) as [-> | Hne].
  - rewrite (Hsr Hr) in Hzr. injection Hzr as <-.
    exists p. rewrite app_nil_r. split; [done |]. split; [lia | done].
  - pose proof (inv_root _ _ _ (fin_inv _ _ _ _ Hfin) r Hr Hne). congruence.
Qed.

(** ** Tables in which no edge can be relaxed *)

Lemma dist_add_add (d : dist) (a b : Z) :
  dist_add (dist_add d a) b = dist_add d (a + b).
Proof. destruct d; simpl; [f_equal; lia | done]. Qed.

(** When no edge can be relaxed, distances along a walk grow at most by
    the weight of the walk. *)
Lemma settled_walk_bound (self : ShortestPathVisualizer)
    (d : gmap string dist) :
  (∀ e, e ∈ edges self → settled_edge d e) →
  ∀ p a b, walk_in self a p b →
    dist_le (dval d b) (dist_add (dval d a) (walk_weight p)).
Proof.
  intros HF. induction p as [|e p IH] using rev_ind; intros a b Hw.
  - destruct Hw as [_ Hw]. simpl in Hw. subst b.
    destruct (dval d a); simpl; [lia | done].
  - apply walk_in_snoc_inv in Hw as (Hp & He & Hb).
    rewrite walk_weight_app. simpl. rewrite Z.add_0_r, <- dist_add_add.
    eapply dist_le_trans.
    + specialize (HF e He). unfold settled_edge in HF. rewrite Hb in HF. exact HF.
    + apply dist_add_mono. by apply IH.
Qed.

Lemma bf_check_false_settled (self : ShortestPathVisualizer) (start : string)
    (t : tables) :
  valid_graph self → tables_dom self start t →
  bf_check (distances t) (edges self) = Ok false →
  ∀ e, e ∈ edges self → settled_edge (distances t) e.
Proof.
  intros Hvalid [Hdom _] Hcheck e He.
  pose proof (bf_check_spec _ _ _ Hcheck) as Hspec.
  assert (Hno : ¬ relaxable (distances t) e).
  { intros Hr. assert (false = true); [| done]. apply Hspec. eauto. }
  destruct (valid_graph_edge self e Hvalid He) as [Hu Hv].
  destruct (getitem_dom (distances t) (id (from_node e))) as (du & _ & Hdu).
  { rewrite Hdom. set_solver. }
  destruct (getitem_dom (distances t) (id (to_node e))) as (dv & _ & Hdv).
  { rewrite Hdom. set_solver. }
  unfold settled_edge.
  rewrite (dval_lookup _ _ _ Hdu), (dval_lookup _ _ _ Hdv).
  destruct du as [zu |]; simpl; [| by destruct dv].
  apply dist_ltb_false.
  destruct (dist_ltb (Fin (zu + weight e)) dv) eqn:Hlt; [| done].
  destruct Hno. exists zu, dv. done.
Qed.

Lemma settled_final_tables (self : ShortestPathVisualizer) (start end_ : string)
    (t : tables) :
  tables_inv self start t →
  (∀ e, e ∈ edges self → settled_edge (distances t) e) →
  final_tables self start end_ t.
Proof.
  intros Hinv HF. split; [done | | by auto].
  intros p Hp.
  pose proof (settled_walk_bound self (distances t) HF p start end_ Hp) as Hb.
  destruct (inv_start _ _ _ Hinv) as (z & Hz & Hz0 & _).
  rewrite (dval_lookup _ _ _ Hz) in Hb. simpl in Hb.
  eapply dist_le_trans; [exact Hb |]. simpl. lia.
Qed.

Lemma make_result_walk (self : ShortestPathVisualizer) (start end_ name : string)
    (t : tables) (fuel : nat) (r : result) :
  final_tables self start end_ t →
  start_root start (distances t) (previous t) →
  make_result fuel t end_ name = Ok r →
  ∀ z, result_distance r = Some (Fin z) →
    ∃ p, walk_in self start p end_ ∧ walk_weight p = z
         ∧ result_path r = walk_nodes start p.
Proof.
  intros Hfin Hsr Hm z Hz.
  apply make_result_shape in Hm as (d & path & -> & Hd & Hrec).
  simpl in Hz. injection Hz as ->. simpl.
  by eapply final_path_walk.
Qed.

(** X4. With non-negative weights and an end that is a node, a finite
    result of [dijkstra] carries a path that is a walk of the graph from
    start to end (start first, then the target of each edge), whose
    weight is the returned distance, and no walk from start to end weighs
    less: the returned path is a shortest path. *)
Theorem dijkstra_path_is_shortest_walk (set_iter : gset string → list string)
    (self : ShortestPathVisualizer) (start end_ : string) :
  lawful_iter set_iter → valid_graph self → nonneg_weights self →
  end_ ∈ dom (nodes self) →
  ∃ fuel r,
    (∀ fuel', (fuel ≤ fuel')%nat → dijkstra set_iter fuel' self start end_ = Ok r)
    ∧ ∀ z, result_distance r = Some (Fin z) →
        ∃ p, walk_in self start p end_ ∧ walk_weight p = z
             ∧ result_path r = walk_nodes start p
             ∧ ∀ q, walk_in self start q end_ → (z ≤ walk_weight q)%Z.
Proof.
  intros Hlaw Hvalid Hnn Hend.
  destruct (dijkstra_correct set_iter self start end_ Hlaw Hvalid Hnn Hend)
    as (fuel & X & t & d & path & Hw & Hd & Hr & Hsd).
  exists fuel. eexists. split.
  { intros fuel' Hle. by eapply dijkstra_fuel_mono. }
  intros z Hz.
  pose proof (dijkstra_while_final set_iter _ self start end_ _ _ _ _
                Hlaw Hvalid Hnn (init_dijkstra_inv self start Hvalid) Hw) as Hfin.
  pose proof (dijkstra_while_closed set_iter self (start_root start) _ start end_
                _ _ _ _ (start_root_closed self start) Hw
                (start_root_init self start)) as Hsr.
  apply dijkstra_result in Hr as (X2 & t2 & Hw2 & Hm).
  assert (t2 = t) as -> by congruence.
  destruct (make_result_walk self start end_ _ t fuel _ Hfin Hsr Hm z Hz)
    as (p & Hp & Hwp & Hpath).
  exists p. split; [done |]. split; [done |]. split; [done |].
  intros q Hq. simpl in Hz. injection Hz as ->.
  by apply (proj1 Hsd q Hq).
Qed.

Lemma dijkstra_path_is_shortest_walk_witness :
  ∃ fuel r,
    (∀ fuel', (fuel ≤ fuel')%nat →
              dijkstra elements fuel' initial_visualizer "A" "C" = Ok r)
    ∧ ∀ z, result_distance r = Some (Fin z) →
        ∃ p, walk_in initial_visualizer "A" p "C" ∧ walk_weight p = z
             ∧ result_path r = walk_nodes "A" p
             ∧ ∀ q, walk_in initial_visualizer "A" q "C" → (z ≤ walk_weight q)%Z.
Proof.
  apply (dijkstra_path_is_shortest_walk elements initial_visualizer "A" "C").
  - exact lawful_iter_elements.
  - apply (bool_decide_unpack _). vm_compute. exact I.
  - apply (bool_decide_unpack _). vm_compute. exact I.
  - apply (bool_decide_unpack _). vm_compute. exact I.
Defined.

(** ** Bellman-Ford: what a returned result means *)

(** X5. For a valid graph and an end that is a node, whatever the signs
    of the weights, [bellman_ford] returns: either the negative-cycle
    dictionary, or a result whose distance is the weight of a shortest
    walk from start to end and whose path, when the distance is finite,
    is a walk from start to end of exactly that weight. *)
Theorem bellman_ford_sound (self : ShortestPathVisualizer) (start end_ : string) :
  valid_graph self → end_ ∈ dom (nodes self) →
  ∃ fuel r,
    (∀ fuel', (fuel ≤ fuel')%nat → bellman_ford fuel' self start end_ = Ok r)
    ∧ (r = ErrorResult "Negative cycle detected" "Bellman-Ford"
       ∨ ∃ d, result_distance r = Some d
              ∧ shortest_distance self start end_ d
              ∧ ∀ z, d = Fin z →
                  ∃ p, walk_in self start p end_ ∧ walk_weight p = z
                       ∧ result_path r = walk_nodes start p).
Proof.
  intros Hvalid Hend.
  destruct (bf_passes_total self start (size (nodes self) - 1)
              (init_tables self start) Hvalid (init_tables_dom self start))
    as (t & Hp & Hdom).
  destruct (bf_check_total self (distances t) (edges self) Hvalid) as (b & Hb).
  { rewrite (proj1 Hdom). set_solver. }
  { done. }
  destruct b.
  - exists 0%nat. eexists. split; [| by left].
    intros fuel' _. unfold bellman_ford. rewrite Hp. simpl. by rewrite Hb.
  - pose proof (bf_passes_inv self start _ _ _ Hvalid Hp
                  (init_tables_inv self start)) as Hinv.
    pose proof (bf_check_false_settled self start t Hvalid Hdom Hb) as HF.
    pose proof (settled_final_tables self start end_ t Hinv HF) as Hfin.
    pose proof (bf_passes_closed self (start_root start) start _ _ _
                  (start_root_closed self start) Hp
                  (start_root_init self start)) as Hsr.
    destruct (final_make_result self start end_ "Bellman-Ford" t Hvalid Hend Hfin)
      as (fuel & d & path & Hm & Hd & Hsd).
    exists fuel. eexists. split.
    + intros fuel' Hle. unfold bellman_ford. rewrite Hp. simpl. rewrite Hb. simpl.
      by eapply make_result_fuel_mono.
    + right. exists d. split; [done |]. split; [done |].
      intros z ->. by eapply (make_result_walk self start end_ _ t fuel).
Qed.

Lemma bellman_ford_sound_witness :
  ∃ fuel r,
    (∀ fuel', (fuel ≤ fuel')%nat →
              bellman_ford fuel' pqr_visualizer "P" "R" = Ok r)
    ∧ (r = ErrorResult "Negative cycle detected" "Bellman-Ford"
       ∨ ∃ d, result_distance r = Some d
              ∧ shortest_distance pqr_visualizer "P" "R" d
              ∧ ∀ z, d = Fin z →
                  ∃ p, walk_in pqr_visualizer "P" p "R" ∧ walk_weight p = z
                       ∧ result_path r = walk_nodes "P" p).
Proof.
  apply (bellman_ford_sound pqr_visualizer "P" "R").
  - apply (bool_decide_unpack _). vm_compute. exact I.
  - apply (bool_decide_unpack _). vm_compute. exact I.
Defined.

(** X6. [bellman_ford] misses no negative cycle: when it returns a result
    other than the negative-cycle dictionary, no closed walk of negative
    weight can be reached from the start node. *)
Theorem bellman_ford_detects_negative_cycles (fuel : nat)
    (self : ShortestPathVisualizer) (start end_ : string) (r : result) :
  valid_graph self →
  bellman_ford fuel self start end_ = Ok r →
  classify r ≠ NegativeCycle →
  no_negative_cycle self start.
Proof.
  intros Hvalid Hr Hclass.
  apply bellman_ford_result in Hr as (t & Hp & [[_ ->] | [Hb _]]); [done |].
  destruct (bf_passes_total self start (size (nodes self) - 1)
              (init_tables self start) Hvalid (init_tables_dom self start))
    as (t' & Hp' & Hdom).
  assert (t' = t) as -> by congruence.
  pose proof (bf_passes_inv self start _ _ _ Hvalid Hp
                (init_tables_inv self start)) as Hinv.
  pose proof (bf_check_false_settled self start t Hvalid Hdom Hb) as HF.
  intros u p c Hpu Hc.
  pose proof (settled_walk_bound self (distances t) HF p start u Hpu) as Hu.
  destruct (inv_start _ _ _ Hinv) as (z & Hz & _).
  rewrite (dval_lookup _ _ _ Hz) in Hu. simpl in Hu.
  pose proof (settled_walk_bound self (distances t) HF c u u Hc) as Hcyc.
  destruct (dval (distances t) u) as [x |]; simpl in *; [lia | done].
Qed.

Lemma bellman_ford_detects_negative_cycles_witness :
  no_negative_cycle initial_visualizer "A".
Proof.
  apply (bellman_ford_detects_negative_cycles 5 initial_visualizer "A" "C"
           (PathResult (Fin 7) ["A"; "B"; "C"] ["B"; "E"; "C"; "D"] "Bellman-Ford")).
  - apply (bool_decide_unpack _). vm_compute. exact I.
  - vm_compute. reflexivity.
  - discriminate.
Defined.

(** ** Bellman-Ford: what the passes achieve *)

(** What one scan of an edge does: nothing, or an improving relaxation. *)
Lemma bf_relax_cases (start : string) (t : tables) (b : bool) (e : Edge)
    (acc' : tables * bool) :
  bf_relax start (t, b) e = Ok acc' →
  (acc' = (t, b) ∧ settled_edge (distances t) e)
  ∨ ∃ zu dv, distances t !! id (from_node e) = Some (Fin zu)
             ∧ distances t !! id (to_node e) = Some dv
             ∧ dist_ltb (Fin (zu + weight e)) dv = true
             ∧ snd acc' = true
             ∧ distances (fst acc')
               = <[id (to_node e) := Fin (zu + weight e)]> (distances t).
Proof.
  unfold bf_relax. cbn [fst]. intros H.
  apply bind_Ok in H as (du & Hdu%getitem_Ok & H).
  destruct du as [zu |]; cbn [is_inf] in H.
  - apply bind_Ok in H as (dv & Hdv%getitem_Ok & H).
    change (dist_add (Fin zu) (weight e)) with (Fin (zu + weight e)) in H.
    destruct (dist_ltb (Fin (zu + weight e)) dv) eqn:Hlt.
    + right. exists zu, dv. injection H as <-. done.
    + left. injection H as <-. split; [done |]. unfold settled_edge.
      rewrite (dval_lookup _ _ _ Hdu), (dval_lookup _ _ _ Hdv). simpl.
      by apply dist_ltb_false.
  - left. injection H as <-. split; [done |]. unfold settled_edge.
    rewrite (dval_lookup _ _ _ Hdu). simpl. by destruct (dval _ _).
Qed.

(** A pass that reports no update changed nothing, and no edge can be
    relaxed in its tables. *)
Lemma bf_pass_quiet (start : string) (es : list Edge) (t t' : tables) :
  for_each (bf_relax start) es (t, false) = Ok (t', false) →
  t' = t ∧ ∀ e, e ∈ es → settled_edge (distances t) e.
Proof.
  intros H.
  apply (for_each_prefix_inv
           (λ done acc, snd acc = false →
                        fst acc = t ∧ ∀ e, e ∈ done → settled_edge (distances t) e))
    in H.
  - done.
  - intros _. split; [done |]. by intros e ?%elem_of_nil.
  - intros done e rest [s1 b1] [s2 b2] _ IH Hr Hb2. simpl in *. subst b2.
    destruct (bf_relax_cases start s1 b1 e _ Hr)
      as [[Heq Hset] | (zu & dv & _ & _ & _ & Htrue & _)]; [| done].
    injection Heq as Hs Hb. subst s2 b1. destruct (IH eq_refl) as [-> Hdone].
    split; [done |].
    intros e' [He' | ->%list_elem_of_singleton]%elem_of_app; [by apply Hdone | done].
  - done.
Qed.

(** A pass extends the bound on walks by one edge. *)
Lemma bf_pass_bound (self : ShortestPathVisualizer) (start : string) (k : nat)
    (t t' : tables) (b : bool) :
  for_each (bf_relax start) (edges self) (t, false) = Ok (t', b) →
  walk_bounded self start k (distances t) →
  walk_bounded self start (S k) (distances t').
Proof.
  intros H Hk.
  apply (for_each_prefix_inv
           (λ done acc,
              (∀ x, dist_le (dval (distances (fst acc)) x) (dval (distances t) x))
              ∧ ∀ e, e ∈ done →
                  dist_le (dval (distances (fst acc)) (id (to_node e)))
                    (dist_add (dval (distances t) (id (from_node e))) (weight e))))
    in H.
  - destruct H as [Hmono Hall]. simpl in *.
    intros p v Hp Hlen.
    destruct p as [|e p _] using rev_ind.
    + eapply dist_le_trans; [apply Hmono |]. apply (Hk [] v Hp). simpl. lia.
    + apply walk_in_snoc_inv in Hp as (Hp & He & <-).
      rewrite length_app in Hlen. simpl in Hlen.
      rewrite walk_weight_app. simpl. rewrite Z.add_0_r.
      eapply dist_le_trans; [by apply Hall |].
      apply (dist_add_mono _ (Fin (walk_weight p)) (weight e)).
      apply Hk; [done | lia].
  - simpl. split; [intros x; apply dist_le_refl |]. by intros e ?%elem_of_nil.
  - intros done e rest [s1 b1] [s2 b2] _ [Hmono Hdone] Hr. simpl in *.
    destruct (bf_relax_cases start s1 b1 e _ Hr)
      as [[Heq Hset] | (zu & dv & Hu & Hv & Hlt & _ & Hd2)].
    + injection Heq as -> ->. split; [done |].
      intros e' [He' | ->%list_elem_of_singleton]%elem_of_app; [by apply Hdone |].
      eapply dist_le_trans; [exact Hset |]. apply dist_add_mono. apply Hmono.
    + simpl in Hd2. rewrite Hd2.
      assert (Hnew : dist_le (Fin (zu + weight e))
                       (dval (distances s1) (id (to_node e)))).
      { rewrite (dval_lookup _ _ _ Hv). by apply dist_ltb_le. }
      split.
      * intros x. eapply dist_le_trans; [by apply dval_insert_le | apply Hmono].
      * intros e' [He' | ->%list_elem_of_singleton]%elem_of_app.
        -- eapply dist_le_trans; [by apply dval_insert_le | by apply Hdone].
        -- rewrite dval_insert, decide_True by done.
           apply (dist_le_trans _ (dist_add (dval (distances s1) (id (from_node e)))
                                     (weight e))).
           ++ rewrite (dval_lookup _ _ _ Hu). simpl. lia.
           ++ apply dist_add_mono. apply Hmono.
Qed.

Lemma bf_passes_bound (self : ShortestPathVisualizer) (start : string)
    (n k : nat) (t t' : tables) :
  bf_passes n start (edges self) t = Ok t' →
  walk_bounded self start k (distances t) →
  walk_bounded self start (k + n) (distances t')
  ∨ ∀ e, e ∈ edges self → settled_edge (distances t') e.
Proof.
  revert k t. induction n as [|n IH]; intros k t H Hk; simpl in H.
  - injection H as <-. left. by rewrite Nat.add_0_r.
  - apply bind_Ok in H as ([t1 updated] & Hfor & H). destruct updated.
    + pose proof (bf_pass_bound self start k t t1 true Hfor Hk) as Hk1.
      destruct (IH (S k) t1 H Hk1) as [Hb | HF]; [left | by right].
      by replace (k + S n)%nat with (S k + n)%nat by lia.
    + injection H as <-. right.
      by destruct (bf_pass_quiet start (edges self) t t1 Hfor) as [-> HF].
Qed.

(** ** Cutting cycles out of walks *)

Lemma repeated_element (l : list string) :
  ¬ NoDup l → ∃ l1 x l2 l3, l = l1 ++ x :: l2 ++ x :: l3.
Proof.
  induction l as [|a l IH]; intros Hnd.
  - destruct Hnd. apply NoDup_nil_2.
  - destruct (decide (a ∈ l)) as [Hin | Hnin].
    + apply list_elem_of_split in Hin as (l2 & l3 & ->).
      by exists [], a, l2, l3.
    + destruct IH as (l1 & x & l2 & l3 & ->).
      { intros Hl. apply Hnd. by apply NoDup_cons. }
      by exists (a :: l1), x, l2, l3.
Qed.

Lemma walk_nodes_split (self : ShortestPathVisualizer) (l1 l2 : list string)
    (x : string) :
  ∀ s p v, walk_in self s p v → walk_nodes s p = l1 ++ x :: l2 →
    ∃ p1 p2, p = p1 ++ p2 ∧ walk_in self s p1 x ∧ walk_in self x p2 v
             ∧ walk_nodes x p2 = x :: l2 ∧ length p1 = length l1.
Proof.
  induction l1 as [|a l1 IH]; intros s p v Hw Hn.
  - simpl in Hn. unfold walk_nodes in Hn. injection Hn as -> Hl2.
    exists [], p. split; [done |]. split; [apply walk_in_nil |].
    split; [done |]. split; [| done]. unfold walk_nodes. by rewrite Hl2.
  - unfold walk_nodes in Hn. simpl in Hn. injection Hn as -> Hrest.
    destruct p as [|e p]; simpl in Hrest.
    { by destruct l1. }
    destruct Hw as [Hall [Hfrom Hw]]. apply Forall_cons in Hall as [He Hall].
    destruct (IH (id (to_node e)) p v) as (p1 & p2 & -> & H1 & H2 & Hn2 & Hlen).
    { by split. }
    { unfold walk_nodes. simpl. by rewrite Hrest. }
    exists (e :: p1), p2. split; [done |]. split.
    + destruct H1 as [Hall1 Hw1]. split; [by apply Forall_cons | by split].
    + split; [done |]. split; [done |]. simpl. by rewrite Hlen.
Qed.

Lemma walk_nodes_length (s : string) (p : list Edge) :
  length (walk_nodes s p) = S (length p).
Proof. unfold walk_nodes. simpl. by rewrite length_map. Qed.

Lemma walk_nodes_in_graph (self : ShortestPathVisualizer) (s v : string)
    (p : list Edge) :
  valid_graph self → s ∈ dom (nodes self) → walk_in self s p v →
  ∀ x, x ∈ walk_nodes s p → x ∈ dom (nodes self).
Proof.
  intros Hvalid Hs [Hall _] x. unfold walk_nodes.
  intros [-> | Hx]%elem_of_cons; [done |].
  apply list_elem_of_fmap in Hx as (e & -> & He).
  apply (proj1 (Forall_forall _ _) Hall) in He.
  by destruct (valid_graph_edge self e Hvalid He).
Qed.

(** Without negative cycles, a walk can be replaced by one that is no
    heavier and visits no node twice, hence has fewer edges than the
    graph has nodes. *)
Lemma walk_shortcut (self : ShortestPathVisualizer) (start : string) :
  valid_graph self → start ∈ dom (nodes self) → no_negative_cycle self start →
  ∀ n p v, (length p ≤ n)%nat → walk_in self start p v →
    ∃ p', walk_in self start p' v
          ∧ (S (length p') ≤ size (nodes self))%nat
          ∧ (walk_weight p' ≤ walk_weight p)%Z.
Proof.
  intros Hvalid Hs Hnc. induction n as [|n IH]; intros p v Hlen Hw.
  - destruct p; [| simpl in Hlen; lia].
    exists []. split; [done |]. split; [| lia]. simpl.
    assert (size (nodes self) ≠ 0%nat); [| lia].
    rewrite <- size_dom. intros Hz%size_empty_inv. set_solver.
  - destruct (decide (NoDup (walk_nodes start p))) as [Hnd | Hdup].
    + exists p. split; [done |]. split; [| lia].
      assert (Hle : (length (walk_nodes start p)
                     ≤ length (elements (dom (nodes self))))%nat).
      { apply submseteq_length, NoDup_submseteq; [done |].
        intros x Hx. apply elem_of_elements. by eapply walk_nodes_in_graph. }
      rewrite walk_nodes_length in Hle. rewrite <- size_dom. exact Hle.
    + apply repeated_element in Hdup as (l1 & x & l2 & l3 & Hn).
      destruct (walk_nodes_split self l1 (l2 ++ x :: l3) x start p v Hw Hn)
        as (p1 & p23 & -> & Hw1 & Hw23 & Hn23 & Hlen1).
      destruct (walk_nodes_split self (x :: l2) l3 x x p23 v Hw23 Hn23)
        as (p2 & p3 & -> & Hw2 & Hw3 & _ & Hlen2).
      pose proof (Hnc x p1 p2 Hw1 Hw2) as Hcyc.
      destruct (IH (p1 ++ p3) v) as (p' & Hp' & Hsize & Hweight).
      { rewrite !length_app in Hlen. rewrite length_app. simpl in Hlen2. lia. }
      { by eapply walk_in_app. }
      exists p'. split; [done |]. split; [done |].
      rewrite !walk_weight_app in *. lia.
Qed.

Lemma dist_le_Inf_r (a : dist) : dist_le a Inf.
Proof. by destruct a. Qed.

Lemma init_walk_bounded (self : ShortestPathVisualizer) (start : string) :
  walk_bounded self start 0 (distances (init_tables self start)).
Proof.
  intros p v Hp Hlen. destruct p; [| simpl in Hlen; lia].
  destruct Hp as [_ Hp]. simpl in Hp. subst v.
  by rewrite (dval_lookup _ _ _ (init_distances_start self start)).
Qed.

(** Without a negative cycle reachable from the start, no edge can be
    relaxed after the passes of [bellman_ford]. *)
Lemma bf_passes_settled (self : ShortestPathVisualizer) (start : string)
    (t : tables) :
  valid_graph self → start ∈ dom (nodes self) → no_negative_cycle self start →
  bf_passes (size (nodes self) - 1) start (edges self) (init_tables self start)
  = Ok t →
  ∀ e, e ∈ edges self → settled_edge (distances t) e.
Proof.
  intros Hvalid Hs Hnc Hp.
  destruct (bf_passes_bound self start _ 0 _ _ Hp (init_walk_bounded self start))
    as [Hb | HF]; [| done].
  pose proof (bf_passes_inv self start _ _ _ Hvalid Hp
                (init_tables_inv self start)) as Hinv.
  intros e He. unfold settled_edge.
  destruct (dval (distances t) (id (from_node e))) as [zu |] eqn:Hu;
    [| apply dist_le_Inf_r].
  assert (Hlook : distances t !! id (from_node e) = Some (Fin zu)).
  { unfold dval in Hu. destruct (distances t !! id (from_node e)) as [d |];
      simpl in Hu; [by subst d | done]. }
  destruct (inv_walk _ _ _ Hinv _ _ Hlook) as (p & Hwp & Hweight).
  destruct (walk_in_snoc self start p e Hwp He) as [Hw' Hweight'].
  destruct (walk_shortcut self start Hvalid Hs Hnc _ _ _ (Nat.le_refl _) Hw')
    as (p' & Hp' & Hsize & Hle).
  eapply dist_le_trans; [apply (Hb p' _ Hp'); simpl; lia |].
  simpl. lia.
Qed.

Lemma nonneg_walk_weight (self : ShortestPathVisualizer) (p : list Edge) :
  nonneg_weights self → Forall (λ e, e ∈ edges self) p → (0 ≤ walk_weight p)%Z.
Proof.
  intros Hnn. induction 1 as [|e p He Hall IH]; simpl; [lia |].
  pose proof (nonneg_weights_edge self e Hnn He). lia.
Qed.

Lemma nonneg_no_negative_cycle (self : ShortestPathVisualizer) (start : string) :
  nonneg_weights self → no_negative_cycle self start.
Proof. intros Hnn u p c _ [Hc _]. by apply (nonneg_walk_weight self). Qed.

(** X7. [bellman_ford] raises no false alarm: for a valid graph and a
    start that is a node, when no closed walk of negative weight can be
    reached from the start, the result is not the negative-cycle
    dictionary. *)
Theorem bellman_ford_no_false_alarm (fuel : nat) (self : ShortestPathVisualizer)
    (start end_ : string) (r : result) :
  valid_graph self → start ∈ dom (nodes self) → no_negative_cycle self start →
  bellman_ford fuel self start end_ = Ok r →
  classify r ≠ NegativeCycle.
Proof.
  intros Hvalid Hs Hnc Hr.
  apply bellman_ford_result in Hr as (t & Hp & [[Hb ->] | [_ Hm]]).
  - exfalso.
    pose proof (bf_passes_settled self start t Hvalid Hs Hnc Hp) as HF.
    destruct (proj1 (bf_check_spec _ _ _ Hb) eq_refl) as (e & He & Hrel).
    destruct Hrel as (du & dv & Hu & Hv & Hlt).
    specialize (HF e He). unfold settled_edge in HF.
    rewrite (dval_lookup _ _ _ Hu), (dval_lookup _ _ _ Hv) in HF. simpl in HF.
    by eapply dist_ltb_irrefl_le.
  - apply make_result_shape in Hm as (d & path & -> & _). by destruct d.
Qed.

Lemma bellman_ford_no_false_alarm_witness :
  classify (PathResult (Fin 7) ["A"; "B"; "C"] ["B"; "E"; "C"; "D"] "Bellman-Ford")
  ≠ NegativeCycle.
Proof.
  apply (bellman_ford_no_false_alarm 5 initial_visualizer "A" "C").
  - apply (bool_decide_unpack _). vm_compute. exact I.
  - apply (bool_decide_unpack _). vm_compute. exact I.
  - apply nonneg_no_negative_cycle.
    apply (bool_decide_unpack _). vm_compute. exact I.
  - vm_compute. reflexivity.
Defined.

(** X8. With non-negative weights, a valid graph and start and end that
    are nodes, [dijkstra] and [bellman_ford] both return a path result,
    and the two results hold the same distance. *)
Theorem dijkstra_bellman_ford_same_distance
    (set_iter : gset string → list string) (self : ShortestPathVisualizer)
    (start end_ : string) :
  lawful_iter set_iter → valid_graph self → nonneg_weights self →
  start ∈ dom (nodes self) → end_ ∈ dom (nodes self) →
  ∃ fuel d path1 vo1 path2 vo2,
    ∀ fuel', (fuel ≤ fuel')%nat →
      dijkstra set_iter fuel' self start end_
      = Ok (PathResult d path1 vo1 "Dijkstra")
      ∧ bellman_ford fuel' self start end_
        = Ok (PathResult d path2 vo2 "Bellman-Ford").
Proof.
  intros Hlaw Hvalid Hnn Hs Hend.
  destruct (dijkstra_correct set_iter self start end_ Hlaw Hvalid Hnn Hend)
    as (fuel1 & X & t1 & d1 & path1 & _ & _ & Hr1 & Hsd1).
  destruct (bf_passes_total self start (size (nodes self) - 1)
              (init_tables self start) Hvalid (init_tables_dom self start))
    as (t & Hp & Hdom).
  pose proof (bf_passes_settled self start t Hvalid Hs
                (nonneg_no_negative_cycle self start Hnn) Hp) as HF.
  destruct (bf_check_total self (distances t) (edges self) Hvalid) as (b & Hb).
  { rewrite (proj1 Hdom). set_solver. }
  { done. }
  assert (b = false) as ->.
  { destruct b; [| done]. exfalso.
    destruct (proj1 (bf_check_spec _ _ _ Hb) eq_refl)
      as (e & He & du & dv & Hu & Hv & Hlt).
    specialize (HF e He). unfold settled_edge in HF.
    rewrite (dval_lookup _ _ _ Hu), (dval_lookup _ _ _ Hv) in HF. simpl in HF.
    by eapply dist_ltb_irrefl_le. }
  pose proof (bf_passes_inv self start _ _ _ Hvalid Hp
                (init_tables_inv self start)) as Hinv.
  destruct (final_make_result self start end_ "Bellman-Ford" t Hvalid Hend
              (settled_final_tables self start end_ t Hinv HF))
    as (fuel2 & d2 & path2 & Hm & _ & Hsd2).
  assert (d2 = d1) as -> by by eapply shortest_distance_unique.
  exists (max fuel1 fuel2), d1. do 4 eexists. intros fuel' Hle. split.
  - eapply dijkstra_fuel_mono; [| exact Hr1]. lia.
  - unfold bellman_ford. rewrite Hp. simpl. rewrite Hb. simpl.
    eapply make_result_fuel_mono; [| exact Hm]. lia.
Qed.

Lemma dijkstra_bellman_ford_same_distance_witness :
  ∃ fuel d path1 vo1 path2 vo2,
    ∀ fuel', (fuel ≤ fuel')%nat →
      dijkstra elements fuel' initial_visualizer "A" "C"
      = Ok (PathResult d path1 vo1 "Dijkstra")
      ∧ bellman_ford fuel' initial_visualizer "A" "C"
        = Ok (PathResult d path2 vo2 "Bellman-Ford").
Proof.
  apply (dijkstra_bellman_ford_same_distance elements initial_visualizer "A" "C").
  - exact lawful_iter_elements.
  - apply (bool_decide_unpack _). vm_compute. exact I.
  - apply (bool_decide_unpack _). vm_compute. exact I.
  - apply (bool_decide_unpack _). vm_compute. exact I.
  - apply (bool_decide_unpack _). vm_compute. exact I.
Defined.

(** ** Where the end node stands in the visit order of [dijkstra] *)

Lemma dijkstra_while_end (set_iter : gset string → list string) (fuel : nat)
    (graph : gmap string (list (string * Z))) (start end_ : string)
    (X : gset string) (t : tables) (X' : gset string) (t' : tables) :
  lawful_iter set_iter →
  dijkstra_while set_iter fuel graph start end_ X t = Ok (X', t') →
  end_ ∈ X →
  ((end_ ∉ X') ∧ dval (distances t') end_ ≠ Inf
   ∧ (end_ ≠ start → last (visit_order t') = Some end_))
  ∨ (end_ ∈ X' ∧ dval (distances t') end_ = Inf).
Proof.
  intros Hlaw. revert X t.
  induction fuel as [|fuel IH]; intros X t H Hend; simpl in H.
  - destruct (decide (X = ∅)) as [-> |]; [| done]. by apply elem_of_empty in Hend.
  - destruct (decide (X = ∅)) as [-> |]; [by apply elem_of_empty in Hend |].
    apply bind_Ok in H as ([[fl X1] t1] & Hb & H).
    unfold dijkstra_body in Hb. apply bind_Ok in Hb as (c & Hmin & Hv).
    apply py_min_spec in Hmin as [_ Hmin].
    pose proof Hv as Hv'. unfold dijkstra_visit in Hv'.
    apply bind_Ok in Hv' as (dc & Hdc%getitem_Ok & Hv').
    destruct dc as [zc |]; cbn [is_inf] in Hv'.
    + destruct (decide (c ∈ X)) as [HcX |]; [| done].
      destruct (decide (c = end_)) as [-> | Hce].
      * injection Hv' as <- <- <-. injection H as <- <-. left.
        split; [set_solver |]. split.
        -- destruct (decide (end_ ≠ start)); simpl;
             by rewrite (dval_lookup _ _ _ Hdc).
        -- intros Hne. rewrite decide_True by done. simpl. apply last_snoc.
      * apply bind_Ok in Hv' as (t2 & _ & Hv'). injection Hv' as <- <- <-.
        apply (IH _ _ H). set_solver.
    + injection Hv' as <- <- <-. injection H as <- <-. right.
      split; [done |]. apply dist_le_Inf_l.
      rewrite <- (dval_lookup _ _ _ Hdc). apply Hmin.
      by apply (elem_of_set_iter set_iter Hlaw).
Qed.

(** X9. For an end that is a node, whatever the weights: when the result
    of [dijkstra] has a finite distance and the end differs from the
    start, the end node is the last entry of [visit_order]; when the
    distance is infinite, the end node is not in [visit_order] at all. *)
Theorem dijkstra_visit_order_end (set_iter : gset string → list string)
    (fuel : nat) (self : ShortestPathVisualizer) (start end_ : string)
    (r : result) :
  lawful_iter set_iter → end_ ∈ dom (nodes self) →
  dijkstra set_iter fuel self start end_ = Ok r →
  (classify r = Found → end_ ≠ start →
   last (result_visit_order r) = Some end_)
  ∧ (classify r = Unreachable → end_ ∉ result_visit_order r).
Proof.
  intros Hlaw Hend Hr.
  apply dijkstra_result in Hr as (X & t & Hw & Hm).
  pose proof (dijkstra_while_visit_order _ _ _ _ _ _ _ _ _ Hw
                (init_visit_order_inv self start _)) as (_ & _ & HvoX).
  apply (dijkstra_while_end set_iter _ _ _ _ _ _ _ _ Hlaw) in Hw; [| done].
  apply make_result_shape in Hm as (d & path & -> & Hd & _).
  rewrite (dval_lookup _ _ _ Hd) in Hw. simpl.
  destruct Hw as [(_ & Hfin & Hlast) | [HinX Hinf]].
  - split; [by intros _ | intros Hu; by destruct d].
  - subst d. split; [done |]. intros _ Hin. by apply (HvoX end_).
Qed.

Lemma dijkstra_visit_order_end_witness :
  (classify (PathResult (Fin 7) ["A"; "B"; "C"] ["E"; "B"; "D"; "C"] "Dijkstra")
   = Found → "C" ≠ "A" → last ["E"; "B"; "D"; "C"] = Some "C")
  ∧ (classify (PathResult (Fin 7) ["A"; "B"; "C"] ["E"; "B"; "D"; "C"] "Dijkstra")
     = Unreachable → "C" ∉ ["E"; "B"; "D"; "C"]).
Proof.
  apply (dijkstra_visit_order_end elements 5 initial_visualizer "A" "C"
           (PathResult (Fin 7) ["A"; "B"; "C"] ["E"; "B"; "D"; "C"] "Dijkstra")).
  - exact lawful_iter_elements.
  - apply (bool_decide_unpack _). vm_compute. exact I.
  - vm_compute. reflexivity.
Defined.

(** ** The event loop *)

Lemma foldl_inv {A B} (P : A → Prop) (f : A → B → A) (l : list B) (a : A) :
  P a → (∀ a x, x ∈ l → P a → P (f a x)) → P (foldl f a l).
Proof.
  revert a. induction l as [|x l IH]; intros a Ha Hstep; simpl; [done |].
  apply IH.
  - apply Hstep; [by left | done].
  - intros a' y Hy. apply Hstep. by right.
Qed.

Lemma lawful_items_lookup (dict_items : gmap string Node → list (string * Node))
    (m : gmap string Node) (item : string * Node) :
  lawful_items dict_items → item ∈ dict_items m →
  m !! fst item = Some (snd item).
Proof.
  intros Hlaw Hin. rewrite (Hlaw m) in Hin. destruct item as [k n].
  by apply elem_of_map_to_list in Hin.
Qed.

Lemma button_step_inv (collidepoint : Rect → Z * Z → bool) (P : App → Prop)
    (get : App → Button) (put : App → Button → App)
    (action : App → outcome App) (self self' : App) (event : Event) :
  (∀ s b, P s → P (put s b)) →
  (∀ s s', P s → action s = Ok s' → P s') →
  P self →
  button_step collidepoint get put action self event = Ok self' →
  P self'.
Proof.
  intros Hput Hact HP H. unfold button_step in H.
  destruct (fst (Button_handle_event collidepoint (get self) event)).
  - eapply Hact; [| exact H]. by apply Hput.
  - injection H as <-. by apply Hput.
Qed.

(** A property of the application that every action of the event loop
    keeps is kept by the handling of an event. *)
Lemma handle_event_inv (collidepoint : Rect → Z * Z → bool)
    (dict_items : gmap string Node → list (string * Node))
    (set_iter : gset string → list string) (fuel : nat)
    (G : ShortestPathVisualizer) (P : App → Prop) (self self' : App)
    (event : Event) :
  lawful_items dict_items →
  (∀ s, P s → app_graph s = G) →
  (∀ s b, P s → P (set_run_button s b) ∧ P (set_clear_button s b)
                 ∧ P (set_dijkstra_button s b) ∧ P (set_bellman_button s b)) →
  (∀ s, P s → P (set_result s None)) →
  (∀ s a, P s → a = "dijkstra" ∨ a = "bellman_ford" →
          P (set_result (set_algorithm s a) None)) →
  (∀ s r, P s →
          (if decide (algorithm s = "dijkstra")
           then dijkstra set_iter fuel (app_graph s) (start_node s) (end_node s)
           else bellman_ford fuel (app_graph s) (start_node s) (end_node s))
          = Ok r →
          P (set_result s (Some r))) →
  (∀ s k n, P s → nodes G !! k = Some n →
            P (set_result (set_start_node s k) None)
            ∧ P (set_result (set_end_node s k) None)) →
  P self →
  handle_event collidepoint dict_items set_iter fuel self event = Ok self' →
  P self'.
Proof.
  intros Hlaw HG Hbtn Hclear Halg Hrun Hsel HP H.
  unfold handle_event in H.
  apply bind_Ok in H as (s1 & H1 & H). apply bind_Ok in H as (s2 & H2 & H).
  apply bind_Ok in H as (s3 & H3 & H). apply bind_Ok in H as (s4 & H4 & H).
  apply (button_step_inv collidepoint P) in H1; [| | | done].
  2: { intros s b Hs. by apply Hbtn. }
  2: { intros s s' Hs Hr. unfold run_algorithm in Hr.
       apply bind_Ok in Hr as (r & Hr & Heq). injection Heq as <-.
       by apply Hrun. }
  apply (button_step_inv collidepoint P) in H2; [| | | done].
  2: { intros s b Hs. by apply Hbtn. }
  2: { intros s s' Hs Heq. injection Heq as <-. by apply Hclear. }
  apply (button_step_inv collidepoint P) in H3; [| | | done].
  2: { intros s b Hs. by apply Hbtn. }
  2: { intros s s' Hs Heq. injection Heq as <-. apply Halg; [done | by left]. }
  apply (button_step_inv collidepoint P) in H4; [| | | done].
  2: { intros s b Hs. by apply Hbtn. }
  2: { intros s s' Hs Heq. injection Heq as <-. apply Halg; [done | by right]. }
  injection H as <-.
  destruct event as [| pos | pos button |]; try done.
  rewrite (HG s4 H4).
  apply foldl_inv; [done |].
  intros s item Hitem Hs. unfold select_node.
  pose proof (lawful_items_lookup dict_items _ item Hlaw Hitem) as Hlook.
  destruct (contains_point _ _ _); [| done].
  destruct (decide (button = 1%Z)); [by apply (Hsel s _ _ Hs Hlook) |].
  destruct (decide (button = 3%Z)); [by apply (Hsel s _ _ Hs Hlook) | done].
Qed.

Lemma handle_events_inv (collidepoint : Rect → Z * Z → bool)
    (dict_items : gmap string Node → list (string * Node))
    (set_iter : gset string → list string) (fuel : nat)
    (P : App → Prop) (events : list Event) (self self' : App) (b : bool) :
  (∀ s s' event, P s →
     handle_event collidepoint dict_items set_iter fuel s event = Ok s' → P s') →
  P self →
  handle_events collidepoint dict_items set_iter fuel events self = Ok (b, self') →
  P self'.
Proof.
  intros Hstep. revert self.
  induction events as [|event events IH]; intros self HP H; simpl in H.
  - by injection H as <- <-.
  - destruct event; try (by injection H as <- <-);
      apply bind_Ok in H as (s1 & H1 & H); eapply IH; try exact H;
      by eapply Hstep.
Qed.

Lemma lawful_items_map_to_list : lawful_items map_to_list.
Proof. by intros m. Qed.

(** Handling one event keeps the graph and the well-formedness of the
    selection. *)
Lemma handle_event_wf (collidepoint : Rect → Z * Z → bool)
    (dict_items : gmap string Node → list (string * Node))
    (set_iter : gset string → list string) (fuel : nat)
    (G : ShortestPathVisualizer) (self self' : App) (event : Event) :
  lawful_items dict_items →
  app_graph self = G ∧ app_wf self →
  handle_event collidepoint dict_items set_iter fuel self event = Ok self' →
  app_graph self' = G ∧ app_wf self'.
Proof.
  intros Hlaw Hs Hev.
  apply (handle_event_inv collidepoint dict_items set_iter fuel
           G (λ s, app_graph s = G ∧ app_wf s)) in Hev.
  - exact Hev.
  - exact Hlaw.
  - by intros s0 [? _].
  - intros s0 b0 [HG (H1 & H2 & H3)]. by repeat split.
  - intros s0 [HG (H1 & H2 & H3)]. by repeat split.
  - intros s0 a [HG (H1 & H2 & H3)] Ha. by repeat split.
  - intros s0 r [HG (H1 & H2 & H3)] _. by repeat split.
  - intros s0 k n [HG (H1 & H2 & H3)] Hk.
    assert (Hdom : k ∈ dom (nodes (app_graph s0))).
    { rewrite HG. apply elem_of_dom. by eauto. }
    by repeat split.
  - exact Hs.
Qed.

(** X10. Whatever events arrive, [handle_events] keeps the start and end
    selections among the node ids of the graph, keeps the algorithm name
    one of "dijkstra" and "bellman_ford", and leaves the graph as it is:
    the algorithms are never run on an identifier that is not a node. *)
Theorem handle_events_keeps_selection (collidepoint : Rect → Z * Z → bool)
    (dict_items : gmap string Node → list (string * Node))
    (set_iter : gset string → list string) (fuel : nat)
    (events : list Event) (self self' : App) (b : bool) :
  lawful_items dict_items → app_wf self →
  handle_events collidepoint dict_items set_iter fuel events self = Ok (b, self') →
  app_wf self' ∧ app_graph self' = app_graph self.
Proof.
  intros Hlaw Hwf H.
  apply (handle_events_inv collidepoint dict_items set_iter fuel
           (λ s, app_graph s = app_graph self ∧ app_wf s)) in H.
  - by destruct H.
  - intros s s' event Hs Hev. by eapply handle_event_wf.
  - done.
Qed.

Lemma handle_events_keeps_selection_witness :
  app_wf (set_start_node initial_app "D")
  ∧ app_graph (set_start_node initial_app "D") = app_graph initial_app.
Proof.
  apply (handle_events_keeps_selection (λ _ _, false) map_to_list elements 5
           [MOUSEBUTTONDOWN (350, 300)%Z 1%Z] initial_app _ true).
  - exact lawful_items_map_to_list.
  - split; [| split; [| by left]]; apply (bool_decide_unpack _); vm_compute; exact I.
  - vm_compute. reflexivity.
Defined.

(** X11. A result shown by the application is never stale: after any
    batch of events, a stored result is the outcome of the currently
    selected algorithm on the currently selected start and end (every
    change of selection or algorithm clears the result). *)
Theorem handle_events_result_fresh (collidepoint : Rect → Z * Z → bool)
    (dict_items : gmap string Node → list (string * Node))
    (set_iter : gset string → list string) (fuel : nat)
    (events : list Event) (self self' : App) (b : bool) :
  lawful_items dict_items → result_fresh set_iter fuel self →
  handle_events collidepoint dict_items set_iter fuel events self = Ok (b, self') →
  result_fresh set_iter fuel self'.
Proof.
  intros Hlaw Hfresh H.
  apply (handle_events_inv collidepoint dict_items set_iter fuel
           (λ s, app_graph s = app_graph self ∧ result_fresh set_iter fuel s)) in H.
  - by destruct H.
  - intros s s' event Hs Hev.
    apply (handle_event_inv collidepoint dict_items set_iter fuel
             (app_graph self)
             (λ s, app_graph s = app_graph self ∧ result_fresh set_iter fuel s))
      in Hev.
    + exact Hev.
    + exact Hlaw.
    + by intros s0 [? _].
    + intros s0 b0 [HG Hf]. by repeat split.
    + intros s0 [HG Hf]. split; [done |]. by intros r Hr.
    + intros s0 a [HG Hf] Ha. split; [done |]. by intros r Hr.
    + intros s0 r [HG Hf] Hr. split; [done |].
      intros r' Heq. simpl in Heq. injection Heq as <-. exact Hr.
    + intros s0 k n [HG Hf] Hk. split; (split; [done |]); by intros r Hr.
    + exact Hs.
  - done.
Qed.

Lemma handle_events_result_fresh_witness :
  result_fresh elements 5
    (set_result initial_app
       (Some (PathResult (Fin 7) ["A"; "B"; "C"] ["E"; "B"; "D"; "C"] "Dijkstra"))).
Proof.
  apply (handle_events_result_fresh
           (λ r _, bool_decide (rect_y r = 200%Z)) map_to_list elements 5
           [MOUSEBUTTONDOWN (0, 0)%Z 1%Z; OTHER] initial_app _ true).
  - exact lawful_items_map_to_list.
  - intros r Hr. discriminate Hr.
  - vm_compute. reflexivity.
Defined.

(** Finitely many fuel bounds have a common one. *)
Lemma uniform_fuel {A} (Q : A → nat → Prop) (l : list A) :
  (∀ x, x ∈ l → ∃ n, ∀ n', (n ≤ n')%nat → Q x n') →
  ∃ n, ∀ x, x ∈ l → ∀ n', (n ≤ n')%nat → Q x n'.
Proof.
  induction l as [|x l IH]; intros H.
  - exists 0%nat. intros x Hx. by apply elem_of_nil in Hx.
  - destruct (H x) as [n1 H1]; [by left |].
    destruct IH as [n2 H2]. { intros y Hy. apply H. by right. }
    exists (n1 `max` n2)%nat. intros y Hy n' Hn'.
    apply elem_of_cons in Hy as [-> | Hy].
    + apply H1. lia.
    + apply (H2 y Hy). lia.
Qed.

(** [bellman_ford] returns on every graph whose edges join nodes. *)
Lemma bellman_ford_total (self : ShortestPathVisualizer) (start end_ : string) :
  valid_graph self → end_ ∈ dom (nodes self) →
  ∃ fuel r, ∀ fuel', (fuel ≤ fuel')%nat → bellman_ford fuel' self start end_ = Ok r.
Proof.
  intros Hvalid Hend.
  destruct (bf_passes_total self start (size (nodes self) - 1)
              (init_tables self start) Hvalid (init_tables_dom self start))
    as (t & Hp & Hdom).
  destruct (bf_check_total self (distances t) (edges self) Hvalid) as (b & Hb).
  { rewrite (proj1 Hdom). set_solver. }
  { done. }
  destruct b.
  - exists 0%nat. eexists. intros fuel' _.
    unfold bellman_ford. rewrite Hp. simpl. by rewrite Hb.
  - pose proof (bf_passes_inv self start _ _ _ Hvalid Hp
                  (init_tables_inv self start)) as Hinv.
    pose proof (bf_check_false_settled self start t Hvalid Hdom Hb) as HF.
    pose proof (settled_final_tables self start end_ t Hinv HF) as Hfin.
    destruct (final_make_result self start end_ "Bellman-Ford" t Hvalid Hend Hfin)
      as (fuel & d & path & Hm & _ & _).
    exists fuel. eexists. intros fuel' Hle.
    unfold bellman_ford. rewrite Hp. simpl. rewrite Hb. simpl.
    by eapply make_result_fuel_mono.
Qed.

(** With non-negative weights both algorithms return, for every start and
    end among the nodes, within one common bound. *)
Lemma algorithms_total (set_iter : gset string → list string)
    (G : ShortestPathVisualizer) :
  lawful_iter set_iter → valid_graph G → nonneg_weights G →
  ∃ fuel0, ∀ start end_ fuel,
    start ∈ dom (nodes G) → end_ ∈ dom (nodes G) → (fuel0 ≤ fuel)%nat →
    (∃ r, dijkstra set_iter fuel G start end_ = Ok r)
    ∧ (∃ r, bellman_ford fuel G start end_ = Ok r).
Proof.
  intros Hlaw Hvalid Hnn.
  destruct (uniform_fuel
              (λ start n, ∀ end_, end_ ∈ elements (dom (nodes G)) →
                 (∃ r, dijkstra set_iter n G start end_ = Ok r)
                 ∧ (∃ r, bellman_ford n G start end_ = Ok r))
              (elements (dom (nodes G)))) as [fuel0 H0].
  - intros start _.
    destruct (uniform_fuel
                (λ end_ n, (∃ r, dijkstra set_iter n G start end_ = Ok r)
                           ∧ (∃ r, bellman_ford n G start end_ = Ok r))
                (elements (dom (nodes G)))) as [n Hn].
    + intros end_ Hend%elem_of_elements.
      destruct (dijkstra_correct set_iter G start end_ Hlaw Hvalid Hnn Hend)
        as (f1 & X & t & d & path & _ & _ & Hr & _).
      destruct (bellman_ford_total G start end_ Hvalid Hend) as (f2 & r2 & H2).
      exists (f1 `max` f2)%nat. intros n' Hn'. split.
      * eexists. eapply dijkstra_fuel_mono; [| exact Hr]. lia.
      * exists r2. apply H2. lia.
    + exists n. intros n' Hn' end_ Hend. by apply Hn.
  - exists fuel0. intros start end_ fuel Hs He Hle.
    apply (H0 start); [by apply elem_of_elements | done | by apply elem_of_elements].
Qed.

Lemma button_step_total (collidepoint : Rect → Z * Z → bool) (P : App → Prop)
    (get : App → Button) (put : App → Button → App)
    (action : App → outcome App) (self : App) (event : Event) :
  (∀ s b, P s → P (put s b)) →
  (∀ s, P s → ∃ s', action s = Ok s') →
  P self →
  ∃ self', button_step collidepoint get put action self event = Ok self'.
Proof.
  intros Hput Hact HP. unfold button_step.
  destruct (fst (Button_handle_event collidepoint (get self) event)).
  - apply Hact. by apply Hput.
  - by eexists.
Qed.

(** Once the selected algorithm returns on every well-formed selection,
    the handling of an event returns. *)
Lemma handle_event_total (collidepoint : Rect → Z * Z → bool)
    (dict_items : gmap string Node → list (string * Node))
    (set_iter : gset string → list string) (fuel : nat)
    (G : ShortestPathVisualizer) (self : App) (event : Event) :
  lawful_items dict_items →
  (∀ s, app_graph s = G ∧ app_wf s →
        ∃ s', run_algorithm set_iter fuel s = Ok s') →
  app_graph self = G ∧ app_wf self →
  ∃ self', handle_event collidepoint dict_items set_iter fuel self event = Ok self'
           ∧ app_graph self' = G ∧ app_wf self'.
Proof.
  intros Hlaw Hrun Hs.
  assert (Hput : ∀ s b, app_graph s = G ∧ app_wf s →
            (app_graph (set_run_button s b) = G ∧ app_wf (set_run_button s b))
            ∧ (app_graph (set_clear_button s b) = G ∧ app_wf (set_clear_button s b))
            ∧ (app_graph (set_dijkstra_button s b) = G
               ∧ app_wf (set_dijkstra_button s b))
            ∧ (app_graph (set_bellman_button s b) = G
               ∧ app_wf (set_bellman_button s b))).
  { intros s b [HG (H1 & H2 & H3)]. by repeat split. }
  assert (∃ self', handle_event collidepoint dict_items set_iter fuel self event
                   = Ok self') as [self' H]; [| exists self'; split; [done |];
                                                by eapply handle_event_wf].
  unfold handle_event.
  destruct (button_step_total collidepoint (λ s, app_graph s = G ∧ app_wf s)
              run_button set_run_button (run_algorithm set_iter fuel) self event)
    as [s1 H1]; [by intros s b Hsb; apply Hput | done | done |].
  rewrite H1. simpl.
  assert (HPs1 : app_graph s1 = G ∧ app_wf s1).
  { apply (button_step_inv collidepoint (λ s, app_graph s = G ∧ app_wf s)
             run_button set_run_button (run_algorithm set_iter fuel) self s1 event);
      [by intros s b Hsb; apply Hput | | done | done].
    intros s s' [HG (Ha & Hb & Hc)] Hr. unfold run_algorithm in Hr.
    apply bind_Ok in Hr as (r & _ & Heq). injection Heq as <-. by repeat split. }
  destruct (button_step_total collidepoint (λ s, app_graph s = G ∧ app_wf s)
              clear_button set_clear_button (λ s, Ok (set_result s None)) s1 event)
    as [s2 H2]; [by intros s b Hsb; apply Hput | by eexists | done |].
  assert (HPs2 : app_graph s2 = G ∧ app_wf s2).
  { apply (button_step_inv collidepoint (λ s, app_graph s = G ∧ app_wf s)
             clear_button set_clear_button (λ s, Ok (set_result s None)) s1 s2 event);
      [by intros s b Hsb; apply Hput | | done | exact H2].
    intros s s' [HG (Ha & Hb & Hc)] Heq. injection Heq as <-. by repeat split. }
  rewrite H2. simpl.
  destruct (button_step_total collidepoint (λ s, app_graph s = G ∧ app_wf s)
              dijkstra_button set_dijkstra_button
              (λ s, Ok (set_result (set_algorithm s "dijkstra") None)) s2 event)
    as [s3 H3]; [by intros s b Hsb; apply Hput | by eexists | done |].
  assert (HPs3 : app_graph s3 = G ∧ app_wf s3).
  { apply (button_step_inv collidepoint (λ s, app_graph s = G ∧ app_wf s)
             dijkstra_button set_dijkstra_button
             (λ s, Ok (set_result (set_algorithm s "dijkstra") None)) s2 s3 event);
      [by intros s b Hsb; apply Hput | | done | exact H3].
    intros s s' [HG (Ha & Hb & Hc)] Heq. injection Heq as <-.
    repeat split; try done. by left. }
  rewrite H3. simpl.
  destruct (button_step_total collidepoint (λ s, app_graph s = G ∧ app_wf s)
              bellman_button set_bellman_button
              (λ s, Ok (set_result (set_algorithm s "bellman_ford") None)) s3 event)
    as [s4 H4]; [by intros s b Hsb; apply Hput | by eexists | done |].
  rewrite H4. simpl. by eexists.
Qed.

(** X12. On a graph whose edges join nodes and whose weights are not
    negative, the event loop never fails: whatever the buttons, the clicks
    and the order of the events, [handle_events] returns, with no
    [KeyError] and no endless loop in an algorithm. *)
Theorem handle_events_never_raises (set_iter : gset string → list string)
    (dict_items : gmap string Node → list (string * Node))
    (G : ShortestPathVisualizer) :
  lawful_iter set_iter → lawful_items dict_items →
  valid_graph G → nonneg_weights G →
  ∃ fuel0, ∀ fuel collidepoint events self,
    (fuel0 ≤ fuel)%nat → app_graph self = G → app_wf self →
    ∃ b self',
      handle_events collidepoint dict_items set_iter fuel events self = Ok (b, self').
Proof.
  intros Hlaw Hitems Hvalid Hnn.
  destruct (algorithms_total set_iter G Hlaw Hvalid Hnn) as [fuel0 Htot].
  exists fuel0. intros fuel collidepoint events self Hle HG Hwf.
  assert (Hs : app_graph self = G ∧ app_wf self) by done.
  clear HG Hwf. revert self Hs.
  induction events as [|event events IH]; intros self Hs; simpl.
  - by do 2 eexists.
  - assert (Hstep : ∃ b self',
              (self1 ← handle_event collidepoint dict_items set_iter fuel self event;
               handle_events collidepoint dict_items set_iter fuel events self1)
              = Ok (b, self')).
    { destruct (handle_event_total collidepoint dict_items set_iter fuel G self event
                  Hitems) as (s1 & H1 & Hs1); [| done |].
      - intros s [HG (Ha & Hb & Hc)]. unfold run_algorithm.
        destruct (Htot (start_node s) (end_node s) fuel) as [[r1 Hr1] [r2 Hr2]];
          [by rewrite <- HG | by rewrite <- HG | done |].
        rewrite HG. destruct (decide (algorithm s = "dijkstra")).
        + rewrite Hr1. by eexists.
        + rewrite Hr2. by eexists.
      - rewrite H1. simpl. by apply IH. }
    destruct event; try exact Hstep. by do 2 eexists.
Qed.

Lemma handle_events_never_raises_witness :
  ∃ fuel0, ∀ fuel collidepoint events self,
    (fuel0 ≤ fuel)%nat → app_graph self = initial_visualizer → app_wf self →
    ∃ b self',
      handle_events collidepoint map_to_list elements fuel events self = Ok (b, self').
Proof.
  apply (handle_events_never_raises elements map_to_list initial_visualizer).
  - exact lawful_iter_elements.
  - exact lawful_items_map_to_list.
  - apply (bool_decide_unpack _). vm_compute. exact I.
  - apply (bool_decide_unpack _). vm_compute. exact I.
Defined.

(** X13. [handle_events] returns [False] exactly when the batch of events
    holds a [QUIT] event. *)
Theorem handle_events_flag (collidepoint : Rect → Z * Z → bool)
    (dict_items : gmap string Node → list (string * Node))
    (set_iter : gset string → list string) (fuel : nat)
    (events : list Event) (self self' : App) (b : bool) :
  handle_events collidepoint dict_items set_iter fuel events self = Ok (b, self') →
  b = false ↔ QUIT ∈ events.
Proof.
  revert self. induction events as [|event events IH]; intros self H; simpl in H.
  - injection H as <- _. split; [done |]. by intros ?%elem_of_nil.
  - assert (Hrec : event ≠ QUIT →
              (self1 ← handle_event collidepoint dict_items set_iter fuel self event;
               handle_events collidepoint dict_items set_iter fuel events self1)
              = Ok (b, self') →
              b = false ↔ QUIT ∈ event :: events).
    { intros Hne (s1 & _ & H')%bind_Ok. rewrite (IH s1 H'), elem_of_cons.
      split; [by right |]. by intros [? | ?]. }
    destruct event; try (by apply Hrec).
    injection H as <- _. split; [| done]. intros _. by left.
Qed.

Lemma handle_events_flag_witness :
  false = false ↔ QUIT ∈ [MOUSEMOTION (830, 210)%Z; QUIT; MOUSEBUTTONDOWN (830, 210)%Z 1%Z].
Proof.
  apply (handle_events_flag (λ _ _, true) map_to_list elements 5
           [MOUSEMOTION (830, 210)%Z; QUIT; MOUSEBUTTONDOWN (830, 210)%Z 1%Z]
           initial_app
           (set_bellman_button
              (set_dijkstra_button
                 (set_clear_button
                    (set_run_button initial_app
                       (mkButton (mkRect 820 200 310 40) "Run Algorithm" true))
                    (mkButton (mkRect 820 250 310 40) "Clear Result" true))
                 (mkButton (mkRect 820 320 150 35) "Dijkstra" true))
              (mkButton (mkRect 980 320 150 35) "Bellman-Ford" true))
           false).
  vm_compute. reflexivity.
Defined.

(** X14. The events that follow a [QUIT] in a batch are never handled:
    the outcome is that of the batch cut after the [QUIT]. *)
Theorem handle_events_stops_at_quit (collidepoint : Rect → Z * Z → bool)
    (dict_items : gmap string Node → list (string * Node))
    (set_iter : gset string → list string) (fuel : nat)
    (before after : list Event) (self : App) :
  handle_events collidepoint dict_items set_iter fuel (before ++ QUIT :: after) self
  = handle_events collidepoint dict_items set_iter fuel (before ++ [QUIT]) self.
Proof.
  revert self. induction before as [|event before IH]; intros self; simpl; [done |].
  destruct event; try done;
    by destruct (handle_event collidepoint dict_items set_iter fuel self _);
      simpl; rewrite ?IH.
Qed.

Lemma foldl_select_node_done (pos : Z * Z) (button : Z) (k : string)
    (l : list (string * Node)) (self : App) :
  (∀ item, item ∈ l → contains_point (snd item) (fst pos) (snd pos) = true →
           fst item = k) →
  foldl (select_node pos button) (select button k self) l = select button k self.
Proof.
  induction l as [|item l IH]; intros Hk; simpl; [done |].
  assert (Hstep : select_node pos button (select button k self) item
                  = select button k self).
  { unfold select_node.
    destruct (contains_point _ _ _) eqn:Hc; [| done].
    rewrite (Hk item (list_elem_of_here _ _) Hc).
    unfold select. destruct self.
    by destruct (decide (button = 1%Z)); [| destruct (decide (button = 3%Z))]. }
  rewrite Hstep. apply IH. intros item' Hin. apply Hk. by right.
Qed.

Lemma foldl_select_node_unique (pos : Z * Z) (button : Z) (k : string)
    (l : list (string * Node)) (self : App) :
  (∀ item, item ∈ l → contains_point (snd item) (fst pos) (snd pos) = true →
           fst item = k) →
  (∃ item, item ∈ l ∧ contains_point (snd item) (fst pos) (snd pos) = true) →
  foldl (select_node pos button) self l = select button k self.
Proof.
  induction l as [|item l IH]; intros Hk (item0 & Hin & Hc0).
  { by apply elem_of_nil in Hin. }
  simpl. destruct (contains_point (snd item) (fst pos) (snd pos)) eqn:Hc.
  - assert (Hstep : select_node pos button self item = select button k self).
    { unfold select_node. rewrite Hc.
      by rewrite (Hk item (list_elem_of_here _ _) Hc). }
    rewrite Hstep. apply foldl_select_node_done.
    intros item' Hin'. apply Hk. by right.
  - assert (Hstep : select_node pos button self item = self).
    { unfold select_node. by rewrite Hc. }
    rewrite Hstep. apply IH.
    + intros item' Hin'. apply Hk. by right.
    + exists item0. split; [| done].
      apply elem_of_cons in Hin as [-> | Hin]; [congruence | done].
Qed.

(** X15. A mouse click on a point that lies on the node [k] alone and on
    none of the four buttons makes [k] the start node when the button is
    the left one, the end node when it is the right one, and clears the
    result; any other mouse button changes nothing. The order in which the
    dictionary of nodes is traversed plays no part. *)
Theorem click_selects_node (collidepoint : Rect → Z * Z → bool)
    (dict_items : gmap string Node → list (string * Node))
    (set_iter : gset string → list string) (fuel : nat)
    (self : App) (pos : Z * Z) (button : Z) (k : string) (n : Node) :
  lawful_items dict_items →
  collidepoint (rect (run_button self)) pos = false →
  collidepoint (rect (clear_button self)) pos = false →
  collidepoint (rect (dijkstra_button self)) pos = false →
  collidepoint (rect (bellman_button self)) pos = false →
  nodes (app_graph self) !! k = Some n →
  contains_point n (fst pos) (snd pos) = true →
  map_Forall (λ k' n', contains_point n' (fst pos) (snd pos) = true → k' = k)
    (nodes (app_graph self)) →
  handle_event collidepoint dict_items set_iter fuel self (MOUSEBUTTONDOWN pos button)
  = Ok (if decide (button = 1%Z) then set_result (set_start_node self k) None
        else if decide (button = 3%Z) then set_result (set_end_node self k) None
        else self).
Proof.
  intros Hlaw Hb1 Hb2 Hb3 Hb4 Hk Hc Huniq.
  destruct self as [G st en alg res b1 b2 b3 b4]. simpl in *.
  unfold handle_event, button_step. simpl.
  rewrite Hb1. simpl. rewrite Hb2. simpl. rewrite Hb3. simpl. rewrite Hb4. simpl.
  destruct b1, b2, b3, b4. simpl. f_equal.
  apply (foldl_select_node_unique pos button k).
  - intros [k' n'] Hin Hc'. simpl in *.
    apply (Huniq k' n'); [| done].
    by apply (lawful_items_lookup dict_items _ (k', n') Hlaw Hin).
  - exists (k, n). split; [| done].
    rewrite (Hlaw (nodes G)). by apply elem_of_map_to_list.
Qed.

Lemma click_selects_node_witness :
  handle_event (λ _ _, false) map_to_list elements 5 initial_app
    (MOUSEBUTTONDOWN (360, 310)%Z 3%Z)
  = Ok (if decide (3 = 1)%Z then set_result (set_start_node initial_app "D") None
        else if decide (3 = 3)%Z then set_result (set_end_node initial_app "D") None
        else initial_app).
Proof.
  apply (click_selects_node (λ _ _, false) map_to_list elements 5 initial_app
           (360, 310)%Z 3%Z "D" (Node_init "D" 350 300)).
  - exact lawful_items_map_to_list.
  - reflexivity.
  - reflexivity.
  - reflexivity.
  - reflexivity.
  - vm_compute. reflexivity.
  - vm_compute. reflexivity.
  - apply (bool_decide_unpack _). vm_compute. exact I.
Defined.
